(** * cache2go: the LFU cache (lfu.go) and its registry (cache.go)

    A shallow embedding of [LFUCache] and of the process-wide registry
    function of the same name, with the properties of the engine: the
    capacity bound, eviction selection, the error contract of [Value],
    the bucket and [minFrequency] invariants, [Delete], [MostAccessed].

    Conventions of the model.
    - Go's [int], [int64] and [time.Duration] are [Z]; a counter would
      need 2^63 accesses to wrap, which no run of the model reaches.
    - A [*list.Element] is an identifier (a [nat]), drawn from an
      allocation counter kept with the cache ([nextElement]); a bucket
      ([container/list.List]) is the list of its elements, front first.
      [List.Remove] only unlinks an element that belongs to the list it
      is called on, which is membership of the identifier.
    - The cache is used under its lock; the model is the sequential
      behaviour of one locked operation after the other.
    - A callback is an opaque name. Each invocation is appended to
      [trace] with its argument and the primary map as it is at that
      moment, so that "before" and "after" a structural change can be
      stated.
    - [time.Now()] is the argument [now] of the operations that read
      the clock.  The logger is not modelled. *)

From stdpp Require Import gmap strings list fin_maps sorting.

Open Scope Z_scope.

(** ** container/list *)

Module GoList.
Section Elements.

Context {K : Type}.

Record Element : Type := mkElement { id : nat; Value : K }.

Definition PushFront (e : Element) (l : list Element) : list Element :=
  e :: l.

(** [l.Remove(e)]: unlinks [e] if it is an element of [l], else leaves
    [l] as it is.  [None] is the nil pointer, which no caller passes
    (the two maps of the cache have the same keys): Go would stop
    there. *)
Fixpoint remove_id (i : nat) (l : list Element) : list Element :=
  match l with
  | [] => []
  | x :: l' => if decide (id x = i) then l' else x :: remove_id i l'
  end.

Definition Remove (e : option nat) (l : list Element) : list Element :=
  match e with
  | Some i => remove_id i l
  | None => l
  end.

(** [l.Back()] *)
Definition Back (l : list Element) : option Element := last l.

End Elements.
Arguments Element : clear implicits.
End GoList.

Abbreviation Element := GoList.Element.
Abbreviation mkElement := GoList.mkElement.
Abbreviation PushFront := GoList.PushFront.
Abbreviation Remove := GoList.Remove.
Abbreviation Back := GoList.Back.
Abbreviation remove_id := GoList.remove_id.

Section LFU.

Context {K : Type} `{Countable K}.
(** [K]: the keys ([interface{}] used as a map key); [D]: the payload;
    [Callback]: the names of the registered callbacks. *)
Context {D : Type} {Callback : Type}.

(** ** CacheItem (cacheitem.go, not among the sources) *)

(** Modelled from the spec: the struct [CacheItem] is declared in
    cacheitem.go.  lfu.go reads and writes the fields [data],
    [lifeSpan], [accessedOn] and [accessCount]; the key is what
    [NewCacheItem] and [Key()] (lfu_test.go) carry. *)
Record CacheItem : Type := mkCacheItem {
  key : K;
  lifeSpan : Z;
  data : D;
  accessedOn : Z;
  accessCount : Z
}.

(** The counter a new item starts with is set in cacheitem.go; it is
    the parameter [initialCount] of the model.  The tests of lfu_test.go
    pass for exactly one value of it, 0 ([tests_fix_initialCount]
    below). *)
Variable initialCount : Z.

(** Modelled from the spec: [NewCacheItem(key, lifeSpan, data)] of
    cacheitem.go, "create an Entry" with a key, a payload, a lifespan
    and the time of creation as last-touch timestamp. *)
Definition NewCacheItem (key : K) (lifeSpan : Z) (data : D) (now : Z)
  : CacheItem :=
  {| key := key; lifeSpan := lifeSpan; data := data;
     accessedOn := now; accessCount := initialCount |}.

(** Modelled from the spec: [AccessCount()] of cacheitem.go, the getter
    of the access counter. *)
Definition AccessCount (item : CacheItem) : Z := accessCount item.

(** Modelled from the spec: [KeepAlive()] of cacheitem.go, the touch of
    an entry: "counter increment, timestamp refresh".  The update path
    of [Add] does the same in line. *)
Definition KeepAlive (item : CacheItem) (now : Z) : CacheItem :=
  {| key := key item; lifeSpan := lifeSpan item; data := data item;
     accessedOn := now; accessCount := accessCount item + 1 |}.

(** ** LFUNode and LFUCache *)

(** [nodeItems] is the field [items] of [LFUNode]; the cache's map has
    the name. *)
Record LFUNode : Type := mkLFUNode {
  frequency : Z;
  nodeItems : list (Element K)
}.

Record Event : Type := mkEvent {
  callback : Callback;
  argument : option CacheItem;
  seen : gmap K CacheItem
}.

Record LFUCache : Type := mkLFUCache {
  name : string;
  capacity : Z;
  size : Z;
  items : gmap K CacheItem;
  keyToListElement : gmap K nat;
  frequencies : gmap Z LFUNode;
  minFrequency : Z;
  loadData : option (K → list D → option CacheItem);
  addedItem : list Callback;
  aboutToDeleteItem : list Callback;
  (* the allocator of list elements and the log of the callbacks *)
  nextElement : nat;
  trace : list Event
}.

Inductive Error : Type := ErrKeyNotFound | ErrKeyNotFoundOrLoadable.

Definition NewLFUCache (name : string) (capacity : Z) : LFUCache :=
  {| name := name; capacity := capacity; size := 0;
     items := ∅; keyToListElement := ∅; frequencies := ∅;
     minFrequency := 0;
     loadData := None; addedItem := []; aboutToDeleteItem := [];
     nextElement := 0; trace := [] |}.

(** Field updates. *)
Definition with_size (n : Z) (c : LFUCache) : LFUCache :=
  mkLFUCache (name c) (capacity c) n (items c) (keyToListElement c)
    (frequencies c) (minFrequency c) (loadData c) (addedItem c)
    (aboutToDeleteItem c) (nextElement c) (trace c).

Definition with_items (m : gmap K CacheItem) (c : LFUCache) : LFUCache :=
  mkLFUCache (name c) (capacity c) (size c) m (keyToListElement c)
    (frequencies c) (minFrequency c) (loadData c) (addedItem c)
    (aboutToDeleteItem c) (nextElement c) (trace c).

Definition with_keyToListElement (m : gmap K nat) (c : LFUCache)
  : LFUCache :=
  mkLFUCache (name c) (capacity c) (size c) (items c) m
    (frequencies c) (minFrequency c) (loadData c) (addedItem c)
    (aboutToDeleteItem c) (nextElement c) (trace c).

Definition with_frequencies (m : gmap Z LFUNode) (c : LFUCache)
  : LFUCache :=
  mkLFUCache (name c) (capacity c) (size c) (items c) (keyToListElement c)
    m (minFrequency c) (loadData c) (addedItem c)
    (aboutToDeleteItem c) (nextElement c) (trace c).

Definition with_minFrequency (f : Z) (c : LFUCache) : LFUCache :=
  mkLFUCache (name c) (capacity c) (size c) (items c) (keyToListElement c)
    (frequencies c) f (loadData c) (addedItem c)
    (aboutToDeleteItem c) (nextElement c) (trace c).

Definition with_loadData (f : option (K → list D → option CacheItem))
  (c : LFUCache) : LFUCache :=
  mkLFUCache (name c) (capacity c) (size c) (items c) (keyToListElement c)
    (frequencies c) (minFrequency c) f (addedItem c)
    (aboutToDeleteItem c) (nextElement c) (trace c).

Definition with_addedItem (l : list Callback) (c : LFUCache) : LFUCache :=
  mkLFUCache (name c) (capacity c) (size c) (items c) (keyToListElement c)
    (frequencies c) (minFrequency c) (loadData c) l
    (aboutToDeleteItem c) (nextElement c) (trace c).

Definition with_aboutToDeleteItem (l : list Callback) (c : LFUCache)
  : LFUCache :=
  mkLFUCache (name c) (capacity c) (size c) (items c) (keyToListElement c)
    (frequencies c) (minFrequency c) (loadData c) (addedItem c)
    l (nextElement c) (trace c).

Definition with_nextElement (n : nat) (c : LFUCache) : LFUCache :=
  mkLFUCache (name c) (capacity c) (size c) (items c) (keyToListElement c)
    (frequencies c) (minFrequency c) (loadData c) (addedItem c)
    (aboutToDeleteItem c) n (trace c).

Definition with_trace (t : list Event) (c : LFUCache) : LFUCache :=
  mkLFUCache (name c) (capacity c) (size c) (items c) (keyToListElement c)
    (frequencies c) (minFrequency c) (loadData c) (addedItem c)
    (aboutToDeleteItem c) (nextElement c) t.

(** [for _, callback := range callbacks { callback(item) }] *)
Definition invoke (callbacks : list Callback) (item : option CacheItem)
  (c : LFUCache) : LFUCache :=
  with_trace
    (trace c ++ map (λ cb, mkEvent cb item (items c)) callbacks) c.

(** The bucket of a frequency: the elements of its node, [] when the
    node was never created. *)
Definition bucket (c : LFUCache) (f : Z) : list (Element K) :=
  from_option nodeItems [] (frequencies c !! f).

(** [cache.frequencies[f].items.PushFront(key)], after the node was
    created if it did not exist; the new element is recorded for the
    key. *)
Definition pushKey (f : Z) (key : K) (c : LFUCache) : LFUCache :=
  let node := default (mkLFUNode f []) (frequencies c !! f) in
  let element := mkElement (nextElement c) key in
  with_nextElement (S (nextElement c))
    (with_keyToListElement (<[key := GoList.id element]> (keyToListElement c))
       (with_frequencies
          (<[f := mkLFUNode (frequency node)
                    (PushFront element (nodeItems node))]> (frequencies c))
          c)).

(** The removal of [element] from the node at [freq], shared by
    [updateFrequency] and [Delete]:
    [if node, exists := cache.frequencies[freq]; exists {
       node.items.Remove(element)
       if node.items.Len() == 0 && freq == cache.minFrequency {
         cache.minFrequency++ } }] *)
Definition unlink (freq : Z) (element : option nat) (c : LFUCache)
  : LFUCache :=
  match frequencies c !! freq with
  | Some node =>
      let l := Remove element (nodeItems node) in
      let c1 :=
        with_frequencies
          (<[freq := mkLFUNode (frequency node) l]> (frequencies c)) c in
      if decide (length l = 0%nat ∧ freq = minFrequency c)
      then with_minFrequency (minFrequency c + 1) c1
      else c1
  | None => c
  end.

(** [updateFrequency(key)], called for a key of the primary map, after
    its counter was incremented. *)
Definition updateFrequency (key : K) (cache : LFUCache) : LFUCache :=
  match items cache !! key with
  | Some item =>
      let element := keyToListElement cache !! key in
      let oldFreq := AccessCount item in
      let newFreq := oldFreq + 1 in
      pushKey newFreq key (unlink oldFreq element cache)
  | None => cache
  end.

(** [evictLFU()] *)
Definition evictLFU (cache : LFUCache) : LFUCache :=
  if decide (size cache = 0) then cache
  else
    match frequencies cache !! minFrequency cache with
    | None => cache
    | Some minNode =>
        match Back (nodeItems minNode) with
        | None => cache
        | Some element =>
            let key := GoList.Value element in
            let c1 :=
              with_frequencies
                (<[minFrequency cache :=
                     mkLFUNode (frequency minNode)
                       (Remove (Some (GoList.id element)) (nodeItems minNode))]>
                   (frequencies cache)) cache in
            let item := items c1 !! key in
            let c2 := invoke (aboutToDeleteItem c1) item c1 in
            with_size (size c2 - 1)
              (with_keyToListElement (delete key (keyToListElement c2))
                 (with_items (delete key (items c2)) c2))
        end
    end.

(** The insertion of a new item, shared by [Add] and by the loader path
    of [Value]:
    [if cache.size >= cache.capacity { cache.evictLFU() }
     cache.items[key] = item; cache.size++
     ... cache.frequencies[1].items.PushFront(key) ...
     cache.minFrequency = 1] *)
Definition insertNew (key : K) (item : CacheItem) (cache : LFUCache)
  : LFUCache :=
  let c1 := if decide (capacity cache ≤ size cache)
            then evictLFU cache else cache in
  let c2 := with_size (size c1 + 1) (with_items (<[key := item]> (items c1)) c1) in
  with_minFrequency 1 (pushKey 1 key c2).

(** [Add(key, lifeSpan, data)] *)
Definition Add (key : K) (lifeSpan : Z) (data : D) (now : Z)
  (cache : LFUCache) : CacheItem * LFUCache :=
  match items cache !! key with
  | Some existingItem =>
      (* existingItem.data = data; existingItem.lifeSpan = lifeSpan;
         existingItem.accessedOn = time.Now(); existingItem.accessCount++ *)
      let 'mkCacheItem key0 _ _ _ count := existingItem in
      let existingItem' := mkCacheItem key0 lifeSpan data now (count + 1) in
      let c1 := with_items (<[key := existingItem']> (items cache)) cache in
      (existingItem', updateFrequency key c1)
  | None =>
      let item := NewCacheItem key lifeSpan data now in
      let c1 := insertNew key item cache in
      (item, invoke (addedItem c1) (Some item) c1)
  end.

(** [Value(key, args...)] *)
Definition Value (key : K) (args : list D) (now : Z) (cache : LFUCache)
  : (CacheItem + Error) * LFUCache :=
  match items cache !! key with
  | Some item =>
      let item' := KeepAlive item now in
      let c1 := with_items (<[key := item']> (items cache)) cache in
      (inl item', updateFrequency key c1)
  | None =>
      match loadData cache with
      | Some load =>
          match load key args with
          | Some item => (inl item, insertNew key item cache)
          | None => (inr ErrKeyNotFoundOrLoadable, cache)
          end
      | None => (inr ErrKeyNotFound, cache)
      end
  end.

(** [Delete(key)] *)
Definition Delete (key : K) (cache : LFUCache)
  : (CacheItem + Error) * LFUCache :=
  match items cache !! key with
  | None => (inr ErrKeyNotFound, cache)
  | Some item =>
      let element := keyToListElement cache !! key in
      let freq := AccessCount item in
      let c1 := unlink freq element cache in
      let c2 := invoke (aboutToDeleteItem c1) (Some item) c1 in
      (inl item,
       with_size (size c2 - 1)
         (with_keyToListElement (delete key (keyToListElement c2))
            (with_items (delete key (items c2)) c2)))
  end.

(** [Exists(key)], [Count()], [Capacity()] *)
Definition Exists (key : K) (cache : LFUCache) : bool :=
  bool_decide (is_Some (items cache !! key)).

Definition Count (cache : LFUCache) : Z := size cache.

Definition Capacity (cache : LFUCache) : Z := capacity cache.

(** [Flush()]: the callbacks see every item, in the order of Go's map
    iteration, which is not specified; the model takes the order of
    [map_to_list]. *)
Definition Flush (cache : LFUCache) : LFUCache :=
  let c1 :=
    foldl (λ c kv, invoke (aboutToDeleteItem c) (Some kv.2) c) cache
      (map_to_list (items cache)) in
  with_minFrequency 0
    (with_size 0
       (with_frequencies ∅
          (with_keyToListElement ∅ (with_items ∅ c1)))).

(** [SetDataLoader(f)] *)
Definition SetDataLoader (f : K → list D → option CacheItem)
  (cache : LFUCache) : LFUCache :=
  with_loadData (Some f) cache.

(** The callback queues. *)
Definition RemoveAddedItemCallbacks (cache : LFUCache) : LFUCache :=
  with_addedItem [] cache.

Definition AddAddedItemCallback (f : Callback) (cache : LFUCache)
  : LFUCache :=
  with_addedItem (addedItem cache ++ [f]) cache.

Definition SetAddedItemCallback (f : Callback) (cache : LFUCache)
  : LFUCache :=
  let c1 := if decide (0 < length (addedItem cache))%nat
            then RemoveAddedItemCallbacks cache else cache in
  with_addedItem (addedItem c1 ++ [f]) c1.

Definition RemoveAboutToDeleteItemCallback (cache : LFUCache) : LFUCache :=
  with_aboutToDeleteItem [] cache.

Definition AddAboutToDeleteItemCallback (f : Callback) (cache : LFUCache)
  : LFUCache :=
  with_aboutToDeleteItem (aboutToDeleteItem cache ++ [f]) cache.

Definition SetAboutToDeleteItemCallback (f : Callback) (cache : LFUCache)
  : LFUCache :=
  let c1 := if decide (0 < length (aboutToDeleteItem cache))%nat
            then RemoveAboutToDeleteItemCallback cache else cache in
  with_aboutToDeleteItem (aboutToDeleteItem c1 ++ [f]) c1.

(** [MostAccessed(count)].  The inner loop, over the elements of one
    node from the front, and the outer loop, over the frequencies from
    [len(cache.frequencies)] down to 1; both stop as soon as [count]
    items are collected.  The accumulator is [(result, collected)]. *)
Fixpoint scanNode (cache : LFUCache) (count : Z) (l : list (Element K))
  (acc : list CacheItem * Z) : list CacheItem * Z :=
  match l with
  | [] => acc
  | element :: l' =>
      if decide (acc.2 < count) then
        match items cache !! GoList.Value element with
        | Some item => scanNode cache count l' (acc.1 ++ [item], acc.2 + 1)
        | None => scanNode cache count l' acc
        end
      else acc
  end.

Fixpoint scanFrequencies (cache : LFUCache) (count : Z) (freq : nat)
  (acc : list CacheItem * Z) : list CacheItem * Z :=
  match freq with
  | O => acc
  | S freq' =>
      if decide (acc.2 < count) then
        scanFrequencies cache count freq'
          match frequencies cache !! Z.of_nat freq with
          | Some node => scanNode cache count (nodeItems node) acc
          | None => acc
          end
      else acc
  end.

Definition MostAccessed (count : Z) (cache : LFUCache) : list CacheItem :=
  (scanFrequencies cache count (base.size (frequencies cache)) ([], 0)).1.

(** ** Runs of operations *)

Inductive Op : Type :=
  | OpAdd (key : K) (lifeSpan : Z) (data : D) (now : Z)
  | OpValue (key : K) (args : list D) (now : Z)
  | OpDelete (key : K)
  | OpFlush
  | OpSetDataLoader (f : K → list D → option CacheItem)
  | OpSetAddedItemCallback (f : Callback)
  | OpAddAddedItemCallback (f : Callback)
  | OpRemoveAddedItemCallbacks
  | OpSetAboutToDeleteItemCallback (f : Callback)
  | OpAddAboutToDeleteItemCallback (f : Callback)
  | OpRemoveAboutToDeleteItemCallback.

Definition step (cache : LFUCache) (op : Op) : LFUCache :=
  match op with
  | OpAdd key lifeSpan data now => (Add key lifeSpan data now cache).2
  | OpValue key args now => (Value key args now cache).2
  | OpDelete key => (Delete key cache).2
  | OpFlush => Flush cache
  | OpSetDataLoader f => SetDataLoader f cache
  | OpSetAddedItemCallback f => SetAddedItemCallback f cache
  | OpAddAddedItemCallback f => AddAddedItemCallback f cache
  | OpRemoveAddedItemCallbacks => RemoveAddedItemCallbacks cache
  | OpSetAboutToDeleteItemCallback f => SetAboutToDeleteItemCallback f cache
  | OpAddAboutToDeleteItemCallback f => AddAboutToDeleteItemCallback f cache
  | OpRemoveAboutToDeleteItemCallback =>
      RemoveAboutToDeleteItemCallback cache
  end.

Definition run (ops : list Op) (cache : LFUCache) : LFUCache :=
  foldl step cache ops.

(** The keys of a bucket, front first. *)
Definition keysOf (c : LFUCache) (f : Z) : list K :=
  GoList.Value <$> bucket c f.

End LFU.

Arguments CacheItem : clear implicits.
Arguments LFUNode : clear implicits.
Arguments Event K {_ _} D Callback.
Arguments LFUCache K {_ _} D Callback.
Arguments Op : clear implicits.
(** ** Lists of elements *)

Section ElementLemmas.

Context {K : Type}.
Implicit Types (l : list (Element K)) (x : Element K) (i : nat).

Lemma remove_id_subset i l x : x ∈ remove_id i l → x ∈ l.
Proof.
  induction l as [|y l IH]; simpl; [done|].
  case_decide; rewrite !elem_of_cons; intuition.
Qed.

Lemma remove_id_keeps i l x : x ∈ l → GoList.id x ≠ i → x ∈ remove_id i l.
Proof.
  induction l as [|y l IH]; simpl; [done|].
  rewrite elem_of_cons. intros [->|Hx] Hne.
  - rewrite decide_False by done. left.
  - case_decide; [done|]. right. by apply IH.
Qed.

Lemma remove_id_absent i l : i ∉ GoList.id <$> l → remove_id i l = l.
Proof.
  induction l as [|y l IH]; simpl; [done|].
  rewrite not_elem_of_cons. intros [Hne Hl].
  rewrite decide_False by done. by rewrite IH.
Qed.

Lemma remove_id_ids i l :
  NoDup (GoList.id <$> l) →
  GoList.id <$> remove_id i l = filter (λ j, j ≠ i) (GoList.id <$> l).
Proof.
  induction l as [|y l IH]; [done|].
  rewrite fmap_cons, NoDup_cons. intros [Hy Hl].
  cbn [GoList.remove_id]. case_decide as Hi.
  - rewrite filter_cons_False by (intros Hn; by apply Hn).
    subst i. symmetry. clear IH Hl.
    induction l as [|z l IH]; [done|].
    rewrite fmap_cons, not_elem_of_cons in Hy. destruct Hy as [Hz Hy].
    rewrite fmap_cons, filter_cons_True by congruence. f_equal. by apply IH.
  - rewrite filter_cons_True by done. rewrite fmap_cons. by rewrite IH.
Qed.

Lemma remove_id_gone i l x :
  NoDup (GoList.id <$> l) → x ∈ remove_id i l → GoList.id x ≠ i.
Proof.
  intros Hnd Hx Heq.
  assert (Hin : GoList.id x ∈ GoList.id <$> remove_id i l)
    by (apply list_elem_of_fmap; eauto).
  rewrite remove_id_ids in Hin by done.
  apply list_elem_of_filter in Hin. by destruct Hin.
Qed.

Lemma remove_id_NoDup i l :
  NoDup (GoList.id <$> l) → NoDup (GoList.id <$> remove_id i l).
Proof. intros Hnd. rewrite remove_id_ids by done. by apply NoDup_filter. Qed.

Lemma remove_id_last i l x :
  last l = Some x → GoList.id x = i → NoDup (GoList.id <$> l) →
  l = remove_id i l ++ [x].
Proof.
  induction l as [|z l IH]; [done|].
  intros Hlast Hid Hnd. simpl in Hnd. apply NoDup_cons in Hnd as [Hz Hnd].
  destruct l as [|z' l'].
  - simpl in *. simplify_eq. by rewrite decide_True.
  - change (last (z :: z' :: l')) with (last (z' :: l')) in Hlast.
    cbn [remove_id]. rewrite decide_False.
    + simpl. f_equal. by apply IH.
    + intros Hzi. apply Hz. rewrite Hzi, <- Hid.
      apply list_elem_of_fmap. exists x. split; [done|].
      by apply last_Some_elem_of.
Qed.

End ElementLemmas.

(** ** The two helpers of the engine, seen through [bucket] *)

Section Helpers.

Context {K : Type} `{Countable K} {D Callback : Type}.
Implicit Types (c : LFUCache K D Callback) (k : K) (f : Z).

Lemma bucket_pushKey f k c f' :
  bucket (pushKey f k c) f' =
  if decide (f' = f) then mkElement (nextElement c) k :: bucket c f
  else bucket c f'.
Proof.
  unfold bucket, pushKey. cbn [frequencies with_nextElement
    with_keyToListElement with_frequencies].
  case_decide as Hf.
  - subst f'. rewrite lookup_insert_eq. cbn.
    by destruct (frequencies c !! f).
  - by rewrite lookup_insert_ne.
Qed.

Lemma dom_pushKey f k c :
  dom (frequencies (pushKey f k c)) = {[f]} ∪ dom (frequencies c).
Proof. unfold pushKey. cbn. by rewrite dom_insert_L. Qed.

Lemma bucket_unlink f e c f' :
  bucket (unlink f e c) f' =
  if decide (f' = f) then Remove e (bucket c f) else bucket c f'.
Proof.
  unfold bucket, unlink.
  destruct (frequencies c !! f) as [node|] eqn:Hnode.
  - assert (Hfr : ∀ c', frequencies c' !! f' =
       <[f := mkLFUNode (frequency node) (Remove e (nodeItems node))]>
         (frequencies c) !! f' →
       from_option nodeItems [] (frequencies c' !! f') =
       if decide (f' = f) then Remove e (nodeItems node)
       else from_option nodeItems [] (frequencies c !! f')).
    { intros c' ->. case_decide.
      - subst. by rewrite lookup_insert_eq.
      - by rewrite lookup_insert_ne. }
    cbn. destruct (decide (_ ∧ _)); by apply Hfr.
  - cbn. case_decide; [subst; rewrite Hnode; by destruct e|done].
Qed.

Lemma dom_unlink f e c :
  dom (frequencies (unlink f e c)) = dom (frequencies c).
Proof.
  unfold unlink. destruct (frequencies c !! f) as [node|] eqn:Hnode; [|done].
  assert (f ∈ dom (frequencies c)) by (apply elem_of_dom; eauto).
  case_decide; cbn; rewrite dom_insert_L;
    by apply subseteq_union_1_L, singleton_subseteq_l.
Qed.

Lemma minFrequency_unlink f e c :
  minFrequency (unlink f e c) =
  if decide (f ∈ dom (frequencies c) ∧ Remove e (bucket c f) = []
             ∧ f = minFrequency c)
  then minFrequency c + 1 else minFrequency c.
Proof.
  unfold unlink, bucket.
  destruct (frequencies c !! f) as [node|] eqn:Hnode.
  - assert (f ∈ dom (frequencies c)) by (apply elem_of_dom; eauto).
    cbn. destruct (decide (length _ = _ ∧ _)) as [[Hl ?]|Hn]; cbn.
    + apply length_zero_iff_nil in Hl. by rewrite decide_True.
    + rewrite decide_False; [done|]. intros (_ & Hl & ?). apply Hn.
      by rewrite Hl.
  - assert (f ∉ dom (frequencies c)) by (by apply not_elem_of_dom).
    rewrite decide_False; [done|]. by intros [? _].
Qed.

Lemma unlink_rest f e c :
  let c' := unlink f e c in
  items c' = items c ∧ keyToListElement c' = keyToListElement c ∧
  size c' = size c ∧ capacity c' = capacity c ∧
  nextElement c' = nextElement c ∧ loadData c' = loadData c ∧
  addedItem c' = addedItem c ∧
  aboutToDeleteItem c' = aboutToDeleteItem c ∧ trace c' = trace c ∧
  name c' = name c.
Proof.
  unfold unlink. destruct (frequencies c !! f); [|done].
  by case_decide.
Qed.

Lemma bucket_nonempty_dom c f : bucket c f ≠ [] → f ∈ dom (frequencies c).
Proof.
  unfold bucket. intros Hb. apply elem_of_dom.
  by destruct (frequencies c !! f).
Qed.

End Helpers.

(** ** The invariant of the engine *)

Section Invariant.

Context {K : Type} `{Countable K} {D Callback : Type}.
Implicit Types (c : LFUCache K D Callback) (k : K) (f : Z)
  (item : CacheItem K D).

(** The three maps agree: a resident key [k] with counter [n] owns one
    element, which sits in the bucket of frequency [n + 1] (an item is
    created with counter 0 in bucket 1, and each touch adds one to
    both); the buckets hold nothing else; the frequency levels are
    1, 2, ..., without a gap. *)
Record linked c : Prop := {
  linked_item : ∀ k item, items c !! k = Some item →
    ∃ e, keyToListElement c !! k = Some e ∧
         mkElement e k ∈ bucket c (accessCount item + 1);
  linked_element : ∀ f x, x ∈ bucket c f →
    ∃ item, items c !! GoList.Value x = Some item ∧
            keyToListElement c !! GoList.Value x = Some (GoList.id x) ∧
            f = accessCount item + 1;
  linked_nodup : ∀ f, NoDup (GoList.id <$> bucket c f);
  linked_fresh : ∀ f x, x ∈ bucket c f → (GoList.id x < nextElement c)%nat;
  linked_levels : ∀ f, f ∈ dom (frequencies c) ↔
    1 ≤ f ≤ Z.of_nat (base.size (dom (frequencies c)));
  linked_size : size c = Z.of_nat (base.size (items c));
  linked_loader : ∀ load k args item,
    loadData c = Some load → load k args = Some item → accessCount item = 0
}.

(** [minFrequency] is the least frequency with a non-empty bucket. *)
Record watermark c : Prop := {
  watermark_low : ∀ f, f < minFrequency c → bucket c f = [];
  watermark_bucket : items c ≠ ∅ → bucket c (minFrequency c) ≠ []
}.

(** A touch: the counter of [k] goes from [old] to [old + 1] in the
    primary map, then [updateFrequency] runs. *)
Definition touched k item' c : LFUCache K D Callback :=
  updateFrequency k (with_items (<[k := item']> (items c)) c).

Lemma touched_fields c k e item item' :
  items c !! k = Some item →
  keyToListElement c !! k = Some e →
  mkElement e k ∈ bucket c (accessCount item') →
  let f1 := accessCount item' in
  let c' := touched k item' c in
  (∀ f, bucket c' f =
        if decide (f = f1 + 1)
        then mkElement (nextElement c) k :: bucket c (f1 + 1)
        else if decide (f = f1) then remove_id e (bucket c f1)
        else bucket c f) ∧
  items c' = <[k := item']> (items c) ∧
  keyToListElement c' = <[k := nextElement c]> (keyToListElement c) ∧
  nextElement c' = S (nextElement c) ∧
  dom (frequencies c') = {[f1 + 1]} ∪ dom (frequencies c) ∧
  minFrequency c' =
    (if decide (remove_id e (bucket c f1) = [] ∧ f1 = minFrequency c)
     then minFrequency c + 1 else minFrequency c) ∧
  size c' = size c ∧ capacity c' = capacity c ∧
  loadData c' = loadData c ∧ addedItem c' = addedItem c ∧
  aboutToDeleteItem c' = aboutToDeleteItem c ∧ trace c' = trace c.
Proof.
  intros Hk He Hin f1 c'.
  set (c1 := with_items (<[k := item']> (items c)) c).
  assert (Hc' : c' = pushKey (f1 + 1) k (unlink f1 (Some e) c1)).
  { unfold c', touched, updateFrequency. fold c1.
    change (items c1) with (<[k := item']> (items c)).
    rewrite lookup_insert_eq.
    change (keyToListElement c1) with (keyToListElement c).
    by rewrite He. }
  destruct (unlink_rest f1 (Some e) c1)
    as (Hi & Hke & Hs & Hcap & Hn & Hl & Ha & Hd & Ht & _).
  assert (Hdom : f1 ∈ dom (frequencies c)).
  { apply bucket_nonempty_dom. intros Hnil. unfold f1 in Hnil.
    rewrite Hnil in Hin.
    by apply elem_of_nil in Hin. }
  rewrite Hc'. repeat split.
  - intros f. rewrite bucket_pushKey, !bucket_unlink.
    rewrite Hn. repeat case_decide; try reflexivity; lia.
  - unfold pushKey. cbn. by rewrite Hi.
  - unfold pushKey. cbn. by rewrite Hke, Hn.
  - unfold pushKey. cbn. by rewrite Hn.
  - by rewrite dom_pushKey, dom_unlink.
  - unfold pushKey. cbn. rewrite minFrequency_unlink.
    change (bucket c1 f1) with (bucket c f1).
    change (minFrequency c1) with (minFrequency c).
    change (frequencies c1) with (frequencies c). cbn.
    destruct (decide (remove_id e (bucket c f1) = [] ∧ f1 = minFrequency c))
      as [[? ?]|Hno].
    + by rewrite decide_True.
    + rewrite decide_False; [done|]. intros (_ & ? & ?). by apply Hno.
  - unfold pushKey. cbn. by rewrite Hs.
  - unfold pushKey. cbn. by rewrite Hcap.
  - unfold pushKey. cbn. by rewrite Hl.
  - unfold pushKey. cbn. by rewrite Ha.
  - unfold pushKey. cbn. by rewrite Hd.
  - unfold pushKey. cbn. by rewrite Ht.
Qed.

Lemma element_by_id (l : list (Element K)) x y :
  NoDup (GoList.id <$> l) → x ∈ l → y ∈ l → GoList.id x = GoList.id y →
  x = y.
Proof.
  induction l as [|z l IH]; [by intros _ ?%elem_of_nil|].
  rewrite fmap_cons, NoDup_cons, !elem_of_cons. intros [Hz Hnd] Hx Hy Hid.
  destruct Hx as [->|Hx], Hy as [->|Hy]; try done.
  - exfalso. apply Hz. rewrite Hid. apply list_elem_of_fmap. eauto.
  - exfalso. apply Hz. rewrite <- Hid. apply list_elem_of_fmap. eauto.
  - by apply IH.
Qed.

Lemma resident_nonempty c k item : items c !! k = Some item → items c ≠ ∅.
Proof. intros Hk Hempty. by rewrite Hempty, lookup_empty in Hk. Qed.

Lemma touched_linked c k item item' :
  linked c → items c !! k = Some item →
  accessCount item' = accessCount item + 1 →
  linked (touched k item' c).
Proof.
  intros L Hk Hcount.
  destruct (linked_item c L k item Hk) as (e & He & Hin).
  rewrite <- Hcount in Hin.
  destruct (touched_fields c k e item item' Hk He Hin)
    as (Hb & Hi & Hke & Hn & Hdom & _ & Hs & _ & Hl & _).
  set (f1 := accessCount item') in *.
  constructor.
  - intros k' it'. rewrite Hi, Hke. destruct (decide (k' = k)) as [->|Hne].
    + rewrite !lookup_insert_eq. intros [= <-]. eexists; split; [done|].
      rewrite Hb, decide_True by done. left.
    + rewrite !lookup_insert_ne by done. intros Hit.
      destruct (linked_item c L k' it' Hit) as (e' & He' & Hin').
      exists e'. split; [done|]. rewrite Hb.
      case_decide as Hf; [right; by rewrite <- Hf|].
      case_decide as Hf1; [|done]. rewrite Hf1 in Hin'.
      apply remove_id_keeps; [done|]. cbn. intros ->.
      apply Hne.
      by injection (element_by_id _ _ _ (linked_nodup c L f1) Hin' Hin eq_refl).
  - intros f x. rewrite Hb, Hi, Hke.
    assert (Hold : x ∈ bucket c f → GoList.Value x ≠ k →
      ∃ it, <[k:=item']> (items c) !! GoList.Value x = Some it ∧
        <[k:=nextElement c]> (keyToListElement c) !! GoList.Value x
          = Some (GoList.id x) ∧ f = accessCount it + 1).
    { intros Hx Hne. rewrite !lookup_insert_ne by done.
      by apply (linked_element c L). }
    case_decide as Hf; [|case_decide as Hf1].
    + rewrite elem_of_cons. intros [->|Hx].
      * cbn. rewrite !lookup_insert_eq. eauto.
      * rewrite <- Hf in Hx. apply Hold; [done|]. intros Hxk.
        destruct (linked_element c L f x Hx) as (it & Hit & _ & Hfit).
        rewrite Hxk, Hk in Hit. injection Hit as <-. lia.
    + intros Hx. rewrite <- Hf1 in Hx.
      pose proof (remove_id_gone _ _ _ (linked_nodup c L f) Hx) as Hid.
      apply remove_id_subset in Hx. apply Hold; [done|]. intros Hxk.
      destruct (linked_element c L f x Hx) as (it & _ & Hex & _).
      rewrite Hxk, He in Hex. by injection Hex as ->.
    + intros Hx. apply Hold; [done|]. intros Hxk.
      destruct (linked_element c L f x Hx) as (it & Hit & _ & Hfit).
      rewrite Hxk, Hk in Hit. injection Hit as <-. lia.
  - intros f. rewrite Hb. case_decide; [|case_decide].
    + rewrite fmap_cons. apply NoDup_cons. split; [|apply L].
      cbn. intros (x & Hid & Hx)%list_elem_of_fmap.
      apply (linked_fresh c L) in Hx. lia.
    + apply remove_id_NoDup, L.
    + apply L.
  - intros f x. rewrite Hb, Hn. case_decide; [|case_decide].
    + rewrite elem_of_cons. intros [->|Hx]; [cbn; lia|].
      apply (linked_fresh c L) in Hx. lia.
    + intros Hx%remove_id_subset. apply (linked_fresh c L) in Hx. lia.
    + intros Hx. apply (linked_fresh c L) in Hx. lia.
  - intros f. rewrite Hdom.
    assert (Hf1 : f1 ∈ dom (frequencies c)).
    { apply bucket_nonempty_dom. intros Hnil. rewrite Hnil in Hin.
      by apply elem_of_nil in Hin. }
    pose proof (linked_levels c L) as Hlev.
    destruct (decide (f1 + 1 ∈ dom (frequencies c))) as [Hin1|Hout].
    + rewrite (subseteq_union_1_L {[f1 + 1]} (dom (frequencies c)))
        by (by apply singleton_subseteq_l).
      apply Hlev.
    + rewrite size_union by (by apply disjoint_singleton_l).
      rewrite size_singleton, elem_of_union, elem_of_singleton.
      apply Hlev in Hf1. rewrite Hlev in Hout. rewrite Hlev. lia.
  - rewrite Hs, Hi. rewrite (linked_size c L).
    by rewrite map_size_insert, Hk.
  - rewrite Hl. apply L.
Qed.

Lemma touched_watermark c k item item' :
  linked c → watermark c → items c !! k = Some item →
  accessCount item' = accessCount item + 1 →
  watermark (touched k item' c).
Proof.
  intros L W Hk Hcount.
  destruct (linked_item c L k item Hk) as (e & He & Hin).
  rewrite <- Hcount in Hin.
  destruct (touched_fields c k e item item' Hk He Hin)
    as (Hb & Hi & _ & _ & _ & Hmin & _).
  set (f1 := accessCount item') in *.
  assert (Hle : minFrequency c ≤ f1).
  { destruct (decide (minFrequency c ≤ f1)) as [|Hlt]; [done|].
    rewrite (watermark_low c W f1) in Hin by lia.
    by apply elem_of_nil in Hin. }
  constructor.
  - intros f. rewrite Hmin, Hb. case_decide as Hfire.
    + destruct Hfire as [Hnil Hf1]. intros Hf.
      rewrite decide_False by lia. case_decide as Hff; [done|].
      apply W. lia.
    + intros Hf. rewrite !decide_False by lia. by apply W.
  - intros _. rewrite Hmin, Hb. case_decide as Hfire.
    + destruct Hfire as [_ <-]. by rewrite decide_True.
    + case_decide; [done|]. case_decide as Hf1.
      * intros Hnil. apply Hfire. split; [exact Hnil|by symmetry].
      * apply W. by eapply resident_nonempty.
Qed.

(** [evictLFU] when it finds an element at the back of the bucket at
    [minFrequency]. *)
Lemma evict_fields c node x :
  size c ≠ 0 →
  frequencies c !! minFrequency c = Some node →
  last (nodeItems node) = Some x →
  let c' := evictLFU c in
  let kx := GoList.Value x in
  (∀ f, bucket c' f =
        if decide (f = minFrequency c)
        then remove_id (GoList.id x) (bucket c (minFrequency c))
        else bucket c f) ∧
  items c' = delete kx (items c) ∧
  keyToListElement c' = delete kx (keyToListElement c) ∧
  size c' = size c - 1 ∧
  trace c' = trace c ++
    map (λ cb, mkEvent cb (items c !! kx) (items c)) (aboutToDeleteItem c) ∧
  minFrequency c' = minFrequency c ∧
  dom (frequencies c') = dom (frequencies c) ∧
  nextElement c' = nextElement c ∧ capacity c' = capacity c ∧
  loadData c' = loadData c ∧ addedItem c' = addedItem c ∧
  aboutToDeleteItem c' = aboutToDeleteItem c.
Proof.
  intros Hsize Hnode Hlast c' kx.
  unfold c', evictLFU. rewrite decide_False by done.
  rewrite Hnode. unfold Back. rewrite Hlast. cbn.
  repeat split; try done.
  - intros f. unfold bucket. cbn. case_decide as Hf.
    + subst f. by rewrite lookup_insert_eq, Hnode.
    + by rewrite lookup_insert_ne.
  - rewrite dom_insert_L. apply subseteq_union_1_L, singleton_subseteq_l.
    apply elem_of_dom. eauto.
Qed.

Lemma evict_idle c :
  size c = 0 ∨ bucket c (minFrequency c) = [] → evictLFU c = c.
Proof.
  unfold evictLFU, bucket. intros [Hs|Hb]; [by rewrite decide_True|].
  case_decide; [done|].
  destruct (frequencies c !! minFrequency c) as [node|]; [|done].
  cbn in Hb. by rewrite Hb.
Qed.

Lemma bucket_last c f x :
  last (bucket c f) = Some x →
  ∃ node, frequencies c !! f = Some node ∧ last (nodeItems node) = Some x.
Proof.
  unfold bucket. destruct (frequencies c !! f) as [node|]; [eauto|done].
Qed.

Lemma linked_nonempty c : linked c → size c ≠ 0 → items c ≠ ∅.
Proof.
  intros L Hs Hempty. apply Hs. rewrite (linked_size c L), Hempty.
  by rewrite map_size_empty.
Qed.

Lemma size_resident (m : gmap K (CacheItem K D)) k item :
  m !! k = Some item →
  Z.of_nat (base.size (delete k m)) = Z.of_nat (base.size m) - 1.
Proof.
  intros Hk. rewrite <- (insert_delete_id m k item Hk) at 2.
  rewrite map_size_insert_None by apply lookup_delete_eq. lia.
Qed.

(** An eviction keeps the maps linked; it leaves [minFrequency] as it
    is. *)
Lemma evict_linked c : linked c → linked (evictLFU c).
Proof.
  intros L.
  destruct (decide (size c = 0)) as [Hs|Hs];
    [by rewrite evict_idle by (by left)|].
  destruct (last (bucket c (minFrequency c))) as [x|] eqn:Hlast;
    [|apply last_None in Hlast; by rewrite evict_idle by (by right)].
  destruct (bucket_last _ _ _ Hlast) as (node & Hnode & Hlast').
  destruct (evict_fields c node x Hs Hnode Hlast')
    as (Hb & Hi & Hke & Hsz & _ & _ & Hdom & Hn & _ & Hl & _).
  assert (Hx : x ∈ bucket c (minFrequency c)) by by apply last_Some_elem_of.
  destruct (linked_element c L _ x Hx) as (itx & Hitx & Hex & Hfx).
  constructor.
  - intros k it. rewrite Hi, Hke. intros Hit.
    apply lookup_delete_Some in Hit as [Hne Hit].
    destruct (linked_item c L k it Hit) as (e & He & Hin).
    exists e. rewrite lookup_delete_ne by done. split; [done|].
    rewrite Hb. case_decide as Hf; [|done]. rewrite Hf in Hin.
    apply remove_id_keeps; [done|]. cbn. intros ->. apply Hne.
    pose proof (element_by_id _ _ _
      (linked_nodup c L (minFrequency c)) Hx Hin eq_refl) as Heq.
    by rewrite Heq.
  - intros f y. rewrite Hb, Hi, Hke. intros Hy.
    assert (Hy' : y ∈ bucket c f).
    { case_decide as Hf; [|done]. subst f. by eapply remove_id_subset. }
    destruct (linked_element c L f y Hy') as (it & Hit & Hey & Hf).
    assert (GoList.Value y ≠ GoList.Value x) as Hne.
    { intros Hyx. rewrite Hyx, Hitx in Hit. injection Hit as <-.
      rewrite Hyx, Hex in Hey. injection Hey as Hid.
      rewrite decide_True in Hy by lia.
      by apply remove_id_gone in Hy; [|apply L]. }
    exists it. by rewrite !lookup_delete_ne.
  - intros f. rewrite Hb. case_decide; [apply remove_id_NoDup|]; apply L.
  - intros f y. rewrite Hb, Hn. case_decide.
    + intros Hy%remove_id_subset. by apply (linked_fresh c L) in Hy.
    + apply L.
  - intros f. rewrite Hdom. apply L.
  - rewrite Hsz, Hi, (linked_size c L). by erewrite size_resident.
  - rewrite Hl. apply L.
Qed.

Lemma evict_size c :
  linked c → watermark c → size c ≠ 0 → size (evictLFU c) = size c - 1.
Proof.
  intros L W Hs.
  pose proof (watermark_bucket c W (linked_nonempty c L Hs)) as Hne.
  destruct (last (bucket c (minFrequency c))) as [x|] eqn:Hlast;
    [|by apply last_None in Hlast].
  destruct (bucket_last _ _ _ Hlast) as (node & Hnode & Hlast').
  by destruct (evict_fields c node x Hs Hnode Hlast') as (_ & _ & _ & Hsz & _).
Qed.

(** The second half of [insertNew], after the eviction if there was
    one. *)
Definition placed k item c : LFUCache K D Callback :=
  with_minFrequency 1
    (pushKey 1 k
       (with_size (size c + 1) (with_items (<[k := item]> (items c)) c))).

Lemma insertNew_placed k item c :
  insertNew k item c =
  placed k item (if decide (capacity c ≤ size c) then evictLFU c else c).
Proof. reflexivity. Qed.

Lemma placed_fields k item c :
  let c' := placed k item c in
  (∀ f, bucket c' f =
        if decide (f = 1) then mkElement (nextElement c) k :: bucket c 1
        else bucket c f) ∧
  items c' = <[k := item]> (items c) ∧
  keyToListElement c' = <[k := nextElement c]> (keyToListElement c) ∧
  nextElement c' = S (nextElement c) ∧
  dom (frequencies c') = {[1]} ∪ dom (frequencies c) ∧
  minFrequency c' = 1 ∧ size c' = size c + 1 ∧
  capacity c' = capacity c ∧ loadData c' = loadData c ∧
  addedItem c' = addedItem c ∧
  aboutToDeleteItem c' = aboutToDeleteItem c ∧ trace c' = trace c.
Proof.
  repeat split; try done.
  - intros f. unfold placed.
    change (bucket (with_minFrequency 1 ?c0) f) with (bucket c0 f).
    by rewrite bucket_pushKey.
  - unfold placed. cbn. by rewrite dom_insert_L.
Qed.

Lemma placed_linked k item c :
  linked c → items c !! k = None → accessCount item = 0 →
  linked (placed k item c) ∧ watermark (placed k item c).
Proof.
  intros L Hk Hcount.
  destruct (placed_fields k item c)
    as (Hb & Hi & Hke & Hn & Hdom & Hmin & Hs & _ & Hl & _).
  pose proof (linked_levels c L) as Hlev.
  split; constructor.
  - intros k' it'. rewrite Hi, Hke. destruct (decide (k' = k)) as [->|Hne].
    + rewrite !lookup_insert_eq. intros [= <-]. eexists; split; [done|].
      rewrite Hb, Hcount, decide_True by done. left.
    + rewrite !lookup_insert_ne by done. intros Hit.
      destruct (linked_item c L k' it' Hit) as (e' & He' & Hin').
      exists e'. split; [done|]. rewrite Hb.
      case_decide as Hf; [right; by rewrite <- Hf|done].
  - intros f x. rewrite Hb, Hi, Hke.
    assert (Hold : x ∈ bucket c f →
      ∃ it, <[k:=item]> (items c) !! GoList.Value x = Some it ∧
        <[k:=nextElement c]> (keyToListElement c) !! GoList.Value x
          = Some (GoList.id x) ∧ f = accessCount it + 1).
    { intros Hx.
      destruct (linked_element c L f x Hx) as (it & Hit & Hex & Hf).
      assert (GoList.Value x ≠ k) by (intros Hxk; congruence).
      rewrite !lookup_insert_ne by done. eauto. }
    case_decide as Hf; [|done].
    rewrite elem_of_cons. intros [->|Hx].
    + cbn. rewrite !lookup_insert_eq. exists item. by rewrite Hcount.
    + rewrite <- Hf in Hx. by apply Hold.
  - intros f. rewrite Hb. case_decide; [|apply L].
    rewrite fmap_cons. apply NoDup_cons. split; [|apply L].
    cbn. intros (x & Hid & Hx)%list_elem_of_fmap.
    apply (linked_fresh c L) in Hx. lia.
  - intros f x. rewrite Hb, Hn. case_decide.
    + rewrite elem_of_cons. intros [->|Hx]; [cbn; lia|].
      apply (linked_fresh c L) in Hx. lia.
    + intros Hx. apply (linked_fresh c L) in Hx. lia.
  - intros f. rewrite Hdom.
    destruct (decide (1 ∈ dom (frequencies c))) as [Hin1|Hout].
    + rewrite (subseteq_union_1_L {[1]} (dom (frequencies c)))
        by (by apply singleton_subseteq_l).
      apply Hlev.
    + rewrite size_union by (by apply disjoint_singleton_l).
      rewrite size_singleton, elem_of_union, elem_of_singleton.
      rewrite Hlev in Hout. rewrite Hlev. lia.
  - rewrite Hs, Hi, (linked_size c L).
    rewrite map_size_insert_None by done. lia.
  - rewrite Hl. apply L.
  - intros f. rewrite Hmin, Hb. intros Hf. rewrite decide_False by lia.
    destruct (bucket c f) eqn:Hbf; [done|].
    assert (Hd : f ∈ dom (frequencies c))
      by (apply bucket_nonempty_dom; by rewrite Hbf).
    apply Hlev in Hd. lia.
  - intros _. by rewrite Hmin, Hb, decide_True.
Qed.

Lemma evict_absent k c : items c !! k = None → items (evictLFU c) !! k = None.
Proof.
  intros Hk. unfold evictLFU. case_decide; [done|].
  destruct (frequencies c !! minFrequency c) as [node|]; [|done].
  destruct (Back (nodeItems node)); [|done].
  cbn. by apply lookup_delete_None; right.
Qed.

Lemma evict_loader c : loadData (evictLFU c) = loadData c.
Proof.
  unfold evictLFU. case_decide; [done|].
  destruct (frequencies c !! minFrequency c) as [node|]; [|done].
  by destruct (Back (nodeItems node)).
Qed.

Lemma insertNew_linked k item c :
  linked c → items c !! k = None → accessCount item = 0 →
  linked (insertNew k item c) ∧ watermark (insertNew k item c).
Proof.
  intros L Hk Hcount. rewrite insertNew_placed.
  apply placed_linked; [|by case_decide; [apply evict_absent|]|done].
  case_decide; [by apply evict_linked|done].
Qed.

(** [invoke] only writes the trace. *)
Lemma invoke_linked cbs it c : linked c → linked (invoke cbs it c).
Proof. by intros []. Qed.

Lemma invoke_watermark cbs it c : watermark c → watermark (invoke cbs it c).
Proof. by intros []. Qed.

Lemma flush_calls_loader (l : list (K * CacheItem K D)) c :
  loadData (foldl (λ c kv, invoke (aboutToDeleteItem c) (Some kv.2) c) c l)
  = loadData c.
Proof.
  revert c. induction l as [|kv l IH]; intros c; [done|].
  cbn [foldl]. by rewrite IH.
Qed.

Lemma bucket_no_levels c f : frequencies c = ∅ → bucket c f = [].
Proof. unfold bucket. intros ->. by rewrite lookup_empty. Qed.

Lemma Flush_linked c : linked c → linked (Flush c) ∧ watermark (Flush c).
Proof.
  intros L. unfold Flush.
  pose proof (flush_calls_loader (map_to_list (items c)) c) as Hl.
  split; constructor; cbn; try done.
  - intros f x. rewrite bucket_no_levels by done. by intros ?%elem_of_nil.
  - intros f. rewrite bucket_no_levels by done. constructor.
  - intros f x. rewrite bucket_no_levels by done. by intros ?%elem_of_nil.
  - intros f. rewrite dom_empty_L, size_empty, elem_of_empty. cbn. lia.
  - rewrite Hl. apply L.
Qed.

Lemma new_linked nm cap :
  linked (NewLFUCache nm cap : LFUCache K D Callback) ∧
  watermark (NewLFUCache nm cap : LFUCache K D Callback).
Proof.
  split; constructor; cbn; try done.
  - intros f x. rewrite bucket_no_levels by done. by intros ?%elem_of_nil.
  - intros f. rewrite bucket_no_levels by done. constructor.
  - intros f x. rewrite bucket_no_levels by done. by intros ?%elem_of_nil.
  - intros f. rewrite dom_empty_L, size_empty, elem_of_empty. cbn. lia.
Qed.

(** ** Runs that keep the invariant

    A loader is expected to hand over an item as [NewCacheItem] makes
    it (lfu_test.go, the example program), with its counter at 0.
    [Delete] is left out: it looks for the element in the bucket of the
    counter itself, one below the bucket the element is in
    ([Delete_leaves_element] below). *)
Definition loads_new (load : K → list D → option (CacheItem K D)) : Prop :=
  ∀ k args item, load k args = Some item → accessCount item = 0.

Definition sound_op (op : Op K D Callback) : Prop :=
  match op with
  | OpDelete _ => False
  | OpSetDataLoader f => loads_new f
  | _ => True
  end.

Definition coherent c : Prop := linked c ∧ watermark c.

Lemma Add_update k ls d now c item :
  items c !! k = Some item →
  ∃ item', accessCount item' = accessCount item + 1 ∧
    key item' = key item ∧
    lifeSpan item' = ls ∧ data item' = d ∧ accessedOn item' = now ∧
    ∀ n, Add n k ls d now c = (item', touched k item' c).
Proof.
  intros Hk. destruct item as [k0 ls0 d0 a0 n0].
  exists (mkCacheItem k0 ls d now (n0 + 1)).
  repeat split. intros n. unfold Add. by rewrite Hk.
Qed.

Lemma Add_fresh n key ls d now c :
  items c !! key = None →
  let item := NewCacheItem n key ls d now in
  let c1 := insertNew key item c in
  Add n key ls d now c = (item, invoke (addedItem c1) (Some item) c1).
Proof. intros Hk. unfold Add. by rewrite Hk. Qed.

Lemma Value_hit key args now c item :
  items c !! key = Some item →
  Value key args now c =
  (inl (KeepAlive item now), touched key (KeepAlive item now) c).
Proof. intros Hk. unfold Value. by rewrite Hk. Qed.

Lemma Value_miss key args now c :
  items c !! key = None →
  Value key args now c =
  match loadData c with
  | Some load =>
      match load key args with
      | Some item => (inl item, insertNew key item c)
      | None => (inr ErrKeyNotFoundOrLoadable, c)
      end
  | None => (inr ErrKeyNotFound, c)
  end.
Proof. intros Hk. unfold Value. by rewrite Hk. Qed.

Lemma step_coherent c op :
  coherent c → sound_op op → coherent (step 0 c op).
Proof.
  intros [L W] Hop. destruct op as [key ls d now|key args now|key| |f|f|f| |f|f| ];
    cbn [step]; try done.
  - destruct (items c !! key) as [item|] eqn:Hk.
    + destruct (Add_update key ls d now c item Hk)
        as (item' & Hn & _ & _ & _ & _ & ->).
      split; [by eapply touched_linked|by eapply touched_watermark].
    + rewrite Add_fresh by done. cbn [snd].
      destruct (insertNew_linked key (NewCacheItem 0 key ls d now) c L Hk)
        as [L' W']; [done|].
      split; [by apply invoke_linked|by apply invoke_watermark].
  - destruct (items c !! key) as [item|] eqn:Hk.
    + rewrite (Value_hit _ _ _ _ _ Hk). cbn [snd].
      split; [by eapply touched_linked|by eapply touched_watermark].
    + rewrite Value_miss by done.
      destruct (loadData c) as [load|] eqn:Hload; [|done].
      destruct (load key args) as [item|] eqn:Hitem; [|done].
      apply insertNew_linked; [done..|].
      by eapply (linked_loader c L).
  - by apply Flush_linked.
  - split; [|by destruct W]. destruct L. constructor; try done.
    cbn. intros load k args item [= <-]. apply Hop.
  - unfold SetAddedItemCallback. case_decide;
      (split; [by destruct L|by destruct W]).
  - split; [by destruct L|by destruct W].
  - split; [by destruct L|by destruct W].
  - unfold SetAboutToDeleteItemCallback. case_decide;
      (split; [by destruct L|by destruct W]).
  - split; [by destruct L|by destruct W].
  - split; [by destruct L|by destruct W].
Qed.

Lemma run_coherent ops c :
  coherent c → Forall sound_op ops → coherent (run 0 ops c).
Proof.
  revert c. induction ops as [|op ops IH]; intros c Hc Hops; [done|].
  apply Forall_cons in Hops as [Hop Hops].
  cbn. apply IH; [|done]. by apply step_coherent.
Qed.

End Invariant.

(** ** The capacity bound *)

Section Capacity.

Context {K : Type} `{Countable K} {D Callback : Type}.
Implicit Types (c : LFUCache K D Callback) (k : K) (f : Z)
  (item : CacheItem K D).

Lemma updateFrequency_rest k c :
  let c' := updateFrequency k c in
  items c' = items c ∧ size c' = size c ∧ capacity c' = capacity c ∧
  loadData c' = loadData c ∧ addedItem c' = addedItem c ∧
  aboutToDeleteItem c' = aboutToDeleteItem c ∧ trace c' = trace c ∧
  name c' = name c.
Proof.
  unfold updateFrequency. destruct (items c !! k) as [item|]; [|done].
  destruct (unlink_rest (AccessCount item) (keyToListElement c !! k) c)
    as (? & ? & ? & ? & ? & ? & ? & ? & ? & ?).
  unfold pushKey. by cbn.
Qed.

Lemma evict_rest c :
  let c' := evictLFU c in
  capacity c' = capacity c ∧ loadData c' = loadData c ∧
  addedItem c' = addedItem c ∧
  aboutToDeleteItem c' = aboutToDeleteItem c ∧ name c' = name c ∧
  (size c' = size c ∨ size c' = size c - 1).
Proof.
  unfold evictLFU. case_decide; [by auto 10|].
  destruct (frequencies c !! minFrequency c) as [node|]; [|by auto 10].
  destruct (Back (nodeItems node)); cbn; auto 10.
Qed.

Lemma step_capacity n c (op : Op K D Callback) :
  capacity (step n c op) = capacity c.
Proof.
  destruct op as [k ls d now|k args now|k| |g|g|g| |g|g| ]; cbn [step].
  - unfold Add. destruct (items c !! k) as [[k0 ls0 d0 a0 n0]|]; cbn [snd].
    + by destruct (updateFrequency_rest k
        (with_items (<[k:=mkCacheItem k0 ls d now (n0 + 1)]> (items c)) c))
        as (_ & _ & -> & _).
    + cbn. case_decide; [apply evict_rest|done].
  - unfold Value. destruct (items c !! k) as [item|]; cbn [snd].
    + by destruct (updateFrequency_rest k
        (with_items (<[k:=KeepAlive item now]> (items c)) c))
        as (_ & _ & -> & _).
    + destruct (loadData c) as [load|]; [|done].
      destruct (load k args); [|done].
      cbn. case_decide; [apply evict_rest|done].
  - unfold Delete. destruct (items c !! k) as [item|]; [|done].
    cbn. apply unlink_rest.
  - unfold Flush. cbn. generalize (map_to_list (items c)). intros l.
    revert c. induction l as [|kv l IH]; intros c; [done|].
    cbn [foldl]. by rewrite IH.
  - done.
  - unfold SetAddedItemCallback. by case_decide.
  - done.
  - done.
  - unfold SetAboutToDeleteItemCallback. by case_decide.
  - done.
  - done.
Qed.

Lemma run_capacity n ops c : capacity (run n ops c) = capacity c.
Proof.
  revert c. induction ops as [|op ops IH]; intros c; [done|].
  unfold run in *. cbn. by rewrite IH, step_capacity.
Qed.

Lemma insertNew_size k item c :
  coherent c →
  size (insertNew k item c) =
  if decide (capacity c ≤ size c ∧ size c ≠ 0) then size c
  else size c + 1.
Proof.
  intros [L W]. rewrite insertNew_placed.
  destruct (placed_fields k item
    (if decide (capacity c ≤ size c) then evictLFU c else c))
    as (_ & _ & _ & _ & _ & _ & -> & _).
  destruct (decide (capacity c ≤ size c)) as [Hfull|Hroom].
  - destruct (decide (size c = 0)) as [Hs|Hs].
    + rewrite evict_idle by (by left). rewrite decide_False; [done|].
      by intros [_ ?].
    + rewrite evict_size by done. rewrite decide_True by done. lia.
  - rewrite decide_False; [done|]. by intros [? _].
Qed.

(** The size never exceeds the capacity, or 1 when the capacity is
    below 1: an insertion evicts at most one item and then always puts
    the new one. *)
Definition bounded c : Prop := 0 ≤ size c ≤ Z.max (capacity c) 1.

Lemma step_bounded c op :
  coherent c → sound_op op → bounded c → bounded (step 0 c op).
Proof.
  intros Hc Hop [Hlo Hhi]. unfold bounded. rewrite step_capacity.
  destruct op as [k ls d now|k args now|k| |g|g|g| |g|g| ]; cbn [step];
    try done.
  - destruct (items c !! k) as [item|] eqn:Hk.
    + destruct (Add_update k ls d now c item Hk)
        as (item' & _ & _ & _ & _ & _ & ->). cbn [snd].
      unfold touched.
      by destruct (updateFrequency_rest k
        (with_items (<[k:=item']> (items c)) c)) as (_ & -> & _).
    + rewrite Add_fresh by done. cbn [snd].
      change (size (invoke ?l ?i ?c0)) with (size c0).
      rewrite insertNew_size by done. case_decide; lia.
  - destruct (items c !! k) as [item|] eqn:Hk.
    + rewrite (Value_hit _ _ _ _ _ Hk). cbn [snd]. unfold touched.
      by destruct (updateFrequency_rest k
        (with_items (<[k:=KeepAlive item now]> (items c)) c))
        as (_ & -> & _).
    + rewrite Value_miss by done.
      destruct (loadData c) as [load|]; [|done].
      destruct (load k args); [|done]. cbn [snd].
      rewrite insertNew_size by done. case_decide; lia.
  - cbn. lia.
  - unfold SetAddedItemCallback. by case_decide.
  - unfold SetAboutToDeleteItemCallback. by case_decide.
Qed.

Lemma run_bounded ops c :
  coherent c → Forall sound_op ops → bounded c →
  bounded (run 0 ops c).
Proof.
  revert c. induction ops as [|op ops IH]; intros c Hc Hops Hb; [done|].
  apply Forall_cons in Hops as [Hop Hops].
  cbn. apply IH; [by apply step_coherent|done|by apply step_bounded].
Qed.

(** The runs of [Add] alone. *)
Definition inserts (adds : list (K * Z * D * Z)) : list (Op K D Callback) :=
  (λ a, OpAdd a.1.1.1 a.1.1.2 a.1.2 a.2) <$> adds.

Lemma inserts_sound adds : Forall sound_op (inserts adds).
Proof. apply Forall_fmap, Forall_true. by intros [[[??]?]?]. Qed.

Lemma inserts_snoc adds a c :
  run 0 (inserts (adds ++ [a])) c =
  step 0 (run 0 (inserts adds) c) (OpAdd a.1.1.1 a.1.1.2 a.1.2 a.2).
Proof. unfold run, inserts. by rewrite fmap_app, foldl_app. Qed.

Lemma Add_size_positive c k ls d now :
  coherent c → 0 < size (step 0 c (OpAdd k ls d now)).
Proof.
  intros Hc. pose proof Hc as [L W]. cbn [step].
  destruct (items c !! k) as [item|] eqn:Hk.
  - destruct (Add_update k ls d now c item Hk)
      as (item' & _ & _ & _ & _ & _ & ->). cbn [snd]. unfold touched.
    destruct (updateFrequency_rest k
      (with_items (<[k:=item']> (items c)) c)) as (_ & -> & _).
    cbn. rewrite (linked_size c L).
    rewrite <- (insert_delete_id (items c) k item Hk).
    rewrite map_size_insert_None by apply lookup_delete_eq. lia.
  - rewrite Add_fresh by done. cbn [snd].
    change (size (invoke ?l ?i ?c0)) with (size c0).
    rewrite insertNew_size by done. rewrite (linked_size c L).
    case_decide as Hd; lia.
Qed.

(** C1, as the code has it: on a cache created with capacity C, after
    any run of [Add], [Count() <= Capacity()] when C >= 1; when C = 0
    the count is 1, not 0, after any insert: [Add] evicts the one
    resident item and then puts the new one. *)
Theorem capacity_bound nm cap (adds : list (K * Z * D * Z)) :
  let c := run 0 (inserts adds) (NewLFUCache nm cap) in
  (1 ≤ cap → Count c ≤ Capacity c) ∧
  (cap = 0 → adds ≠ [] → Count c = 1).
Proof.
  intros c.
  assert (Hb : bounded c).
  { apply run_bounded; [apply new_linked|apply inserts_sound|].
    unfold bounded. cbn. lia. }
  assert (Hcap : capacity c = cap) by apply run_capacity.
  unfold Count, Capacity. destruct Hb as [Hlo Hhi]. rewrite Hcap in *.
  split; [lia|]. intros -> Hne.
  destruct adds as [|a adds _] using rev_ind; [done|].
  unfold c in *. rewrite inserts_snoc in *.
  pose proof (Add_size_positive
    (run 0 (inserts adds) (NewLFUCache nm 0)) a.1.1.1 a.1.1.2 a.1.2 a.2)
    as Hpos.
  cut (0 < size (step 0 (run 0 (inserts adds) (NewLFUCache nm 0))
    (OpAdd a.1.1.1 a.1.1.2 a.1.2 a.2))); [lia|].
  apply Hpos, run_coherent; [apply new_linked|apply inserts_sound].
Qed.

End Capacity.

(** ** Recency

    An element is allocated each time a key is inserted or touched, so
    the order of the identifiers is the order of these events.  Every
    bucket is sorted, the most recently touched key at the front. *)

Section Recency.

Context {K : Type} `{Countable K} {D Callback : Type}.
Implicit Types (c : LFUCache K D Callback) (k : K) (f : Z)
  (item : CacheItem K D).

Definition later (x y : Element K) : Prop := (GoList.id y < GoList.id x)%nat.

Definition ordered c : Prop := ∀ f, StronglySorted later (bucket c f).

Lemma remove_id_sorted i (l : list (Element K)) :
  StronglySorted later l → StronglySorted later (remove_id i l).
Proof.
  induction 1 as [|x l Hl IH Hx]; [constructor|].
  cbn. case_decide; [done|]. constructor; [done|].
  apply Forall_forall. intros y Hy%remove_id_subset.
  by eapply Forall_forall in Hx.
Qed.

Lemma push_sorted c f k :
  linked c → ordered c →
  StronglySorted later (mkElement (nextElement c) k :: bucket c f).
Proof.
  intros L O. constructor; [apply O|].
  apply Forall_forall. intros y Hy. unfold later. cbn.
  by apply (linked_fresh c L) in Hy.
Qed.

Lemma touched_ordered c k item item' :
  linked c → ordered c → items c !! k = Some item →
  accessCount item' = accessCount item + 1 →
  ordered (touched k item' c).
Proof.
  intros L O Hk Hcount.
  destruct (linked_item c L k item Hk) as (e & He & Hin).
  rewrite <- Hcount in Hin.
  destruct (touched_fields c k e item item' Hk He Hin) as (Hb & _).
  intros f. rewrite Hb. case_decide; [by apply push_sorted|].
  case_decide; [apply remove_id_sorted|]; apply O.
Qed.

Lemma evict_ordered c : ordered c → ordered (evictLFU c).
Proof.
  intros O.
  destruct (decide (size c = 0)) as [Hs|Hs];
    [by rewrite evict_idle by (by left)|].
  destruct (last (bucket c (minFrequency c))) as [x|] eqn:Hlast;
    [|apply last_None in Hlast; by rewrite evict_idle by (by right)].
  destruct (bucket_last _ _ _ Hlast) as (node & Hnode & Hlast').
  destruct (evict_fields c node x Hs Hnode Hlast') as (Hb & _).
  intros f. rewrite Hb. case_decide; [apply remove_id_sorted|]; apply O.
Qed.

Lemma insertNew_ordered k item c :
  linked c → ordered c → ordered (insertNew k item c).
Proof.
  intros L O. rewrite insertNew_placed.
  set (c1 := if decide (capacity c ≤ size c) then evictLFU c else c).
  assert (linked c1 ∧ ordered c1) as [L1 O1].
  { unfold c1. case_decide; [|done].
    split; [by apply evict_linked|by apply evict_ordered]. }
  destruct (placed_fields k item c1) as (Hb & _).
  intros f. rewrite Hb. case_decide; [by apply push_sorted|apply O1].
Qed.

Lemma step_ordered c op :
  coherent c → sound_op op → ordered c → ordered (step 0 c op).
Proof.
  intros [L W] Hop O.
  destruct op as [k ls d now|k args now|k| |g|g|g| |g|g| ];
    cbn [step]; try done.
  - destruct (items c !! k) as [item|] eqn:Hk.
    + destruct (Add_update k ls d now c item Hk)
        as (item' & Hn & _ & _ & _ & _ & ->).
      by eapply touched_ordered.
    + rewrite Add_fresh by done. cbn [snd].
      by apply (insertNew_ordered k (NewCacheItem 0 k ls d now) c).
  - destruct (items c !! k) as [item|] eqn:Hk.
    + rewrite (Value_hit _ _ _ _ _ Hk). cbn [snd].
      by eapply touched_ordered.
    + rewrite Value_miss by done.
      destruct (loadData c) as [load|]; [|done].
      destruct (load k args) as [item|]; [|done].
      by apply insertNew_ordered.
  - intros f. unfold Flush. rewrite bucket_no_levels by done. constructor.
  - unfold SetAddedItemCallback. by case_decide.
  - unfold SetAboutToDeleteItemCallback. by case_decide.
Qed.

(** The states of the engine: what a run of [Add], [Value], [Flush]
    and of the setters makes of a new cache. *)
Definition engine_state c : Prop := coherent c ∧ ordered c ∧ bounded c.

Lemma step_engine_state c op :
  engine_state c → sound_op op → engine_state (step 0 c op).
Proof.
  intros (Hc & Ho & Hb) Hop. split; [by apply step_coherent|].
  split; [by apply step_ordered|by apply step_bounded].
Qed.

Lemma new_engine_state nm cap :
  engine_state (NewLFUCache nm cap : LFUCache K D Callback).
Proof.
  split; [apply new_linked|]. split.
  - intros f. rewrite bucket_no_levels by done. constructor.
  - unfold bounded. cbn. lia.
Qed.

Lemma run_engine_state ops c :
  engine_state c → Forall sound_op ops → engine_state (run 0 ops c).
Proof.
  revert c. induction ops as [|op ops IH]; intros c Hc Hops; [done|].
  apply Forall_cons in Hops as [Hop Hops].
  cbn. apply IH; [|done]. by apply step_engine_state.
Qed.

End Recency.

(** ** Eviction *)

Section Eviction.

Context {K : Type} `{Countable K} {D Callback : Type}.
Implicit Types (c : LFUCache K D Callback) (k : K) (f : Z)
  (item : CacheItem K D).

Lemma resident_level c k item :
  coherent c → items c !! k = Some item →
  minFrequency c ≤ accessCount item + 1.
Proof.
  intros [L W] Hk.
  destruct (linked_item c L k item Hk) as (e & _ & Hin).
  destruct (decide (minFrequency c ≤ accessCount item + 1)); [done|].
  rewrite (watermark_low c W) in Hin by lia. by apply elem_of_nil in Hin.
Qed.

(** What [evictLFU] does in a state of the engine that holds an item:
    the element [x] at the back of the bucket at [minFrequency] goes.
    Its key is resident with the entry [item]; no resident item has a
    smaller counter, and no element of the bucket is older.  The
    callbacks run in the order of their registration, with [item], on
    a primary map that still has the key; then the key leaves the two
    maps and the size drops by one. *)
Lemma evict_tail c :
  engine_state c → size c ≠ 0 →
  ∃ rest x item,
    bucket c (minFrequency c) = rest ++ [x] ∧
    items c !! GoList.Value x = Some item ∧
    accessCount item + 1 = minFrequency c ∧
    (∀ k' item', items c !! k' = Some item' →
       accessCount item ≤ accessCount item') ∧
    (∀ y, y ∈ bucket c (minFrequency c) → (GoList.id x ≤ GoList.id y)%nat) ∧
    let c' := evictLFU c in
    bucket c' (minFrequency c) = rest ∧
    (∀ f, f ≠ minFrequency c → bucket c' f = bucket c f) ∧
    trace c' = trace c ++
      map (λ cb, mkEvent cb (Some item) (items c)) (aboutToDeleteItem c) ∧
    items c' = delete (GoList.Value x) (items c) ∧
    keyToListElement c' = delete (GoList.Value x) (keyToListElement c) ∧
    size c' = size c - 1 ∧
    minFrequency c' = minFrequency c.
Proof.
  intros ([L W] & O & _) Hs.
  pose proof (watermark_bucket c W (linked_nonempty c L Hs)) as Hne.
  destruct (last (bucket c (minFrequency c))) as [x|] eqn:Hlast;
    [|by apply last_None in Hlast].
  destruct (bucket_last _ _ _ Hlast) as (node & Hnode & Hlast').
  destruct (evict_fields c node x Hs Hnode Hlast')
    as (Hb & Hi & Hke & Hsz & Htr & Hmin & _).
  assert (Hx : x ∈ bucket c (minFrequency c)) by by apply last_Some_elem_of.
  destruct (linked_element c L _ x Hx) as (item & Hitem & _ & Hf).
  pose proof (remove_id_last (GoList.id x) _ x Hlast eq_refl
    (linked_nodup c L _)) as Hsplit.
  exists (remove_id (GoList.id x) (bucket c (minFrequency c))), x, item.
  split; [done|]. split; [done|]. split; [done|]. split.
  { intros k' item' Hk'.
    pose proof (resident_level c k' item' (conj L W) Hk'). lia. }
  split.
  { intros y Hy. rewrite Hsplit in Hy. apply elem_of_app in Hy as [Hy|Hy].
    - pose proof (O (minFrequency c)) as Hsorted. rewrite Hsplit in Hsorted.
      assert (later y x); [|unfold later in *; lia].
      eapply StronglySorted_app_1_elem_of; [done..|]. apply list_elem_of_singleton. done.
    - apply list_elem_of_singleton in Hy. by subst. }
  cbn zeta. rewrite Hb, decide_True by done. split; [done|]. split.
  { intros f Hf'. by rewrite Hb, decide_False. }
  rewrite Htr, Hitem. done.
Qed.

Lemma evict_empty c : size c = 0 → evictLFU c = c.
Proof. intros Hs. apply evict_idle. by left. Qed.

End Eviction.

(** ** Touch *)

Section Touch.

Context {K : Type} `{Countable K} {D Callback : Type}.
Implicit Types (c : LFUCache K D Callback) (k : K) (f : Z)
  (item : CacheItem K D).

Lemma remove_id_keys (l : list (Element K)) e k :
  NoDup (GoList.id <$> l) →
  (∀ x, x ∈ l → GoList.Value x = k ↔ GoList.id x = e) →
  GoList.Value <$> remove_id e l = filter (λ k', k' ≠ k) (GoList.Value <$> l).
Proof.
  induction l as [|x l IH]; [done|].
  rewrite fmap_cons, NoDup_cons. intros [Hx Hnd] Hkey.
  assert (Hkey' : ∀ y, y ∈ l → GoList.Value y = k ↔ GoList.id y = e)
    by (intros y Hy; apply Hkey; by right).
  assert (Hx0 : GoList.Value x = k ↔ GoList.id x = e) by (apply Hkey; left).
  cbn [GoList.remove_id]. rewrite (fmap_cons GoList.Value x l).
  case_decide as Hid.
  - rewrite filter_cons_False by (intros Hn; by apply Hn, Hx0).
    rewrite <- IH by done. rewrite remove_id_absent; [done|by subst e].
  - rewrite filter_cons_True by (intros Hv; by apply Hid, Hx0).
    rewrite fmap_cons. f_equal. by apply IH.
Qed.

(** The move that [updateFrequency] makes for a resident key whose
    counter has gone from [old] to [old + 1]: the key leaves the bucket
    of frequency [old + 1], where it was, and goes to the front of the
    bucket of frequency [old + 2]. *)
Lemma touch_moves c k item item' :
  coherent c → items c !! k = Some item →
  accessCount item' = accessCount item + 1 →
  let old := accessCount item in
  let c' := touched k item' c in
  k ∈ keysOf c (old + 1) ∧
  keysOf c' (old + 1) = filter (λ k', k' ≠ k) (keysOf c (old + 1)) ∧
  minFrequency c' =
    (if decide (keysOf c' (old + 1) = [] ∧ old + 1 = minFrequency c)
     then minFrequency c + 1 else minFrequency c) ∧
  old + 2 ∈ dom (frequencies c') ∧
  keysOf c' (old + 2) = k :: keysOf c (old + 2) ∧
  (∀ f, f ≠ old + 1 → f ≠ old + 2 → keysOf c' f = keysOf c f) ∧
  items c' = <[k := item']> (items c).
Proof.
  intros [L W] Hk Hcount old c'.
  destruct (linked_item c L k item Hk) as (e & He & Hin).
  pose proof Hin as Hin'. rewrite <- Hcount in Hin'.
  destruct (touched_fields c k e item item' Hk He Hin')
    as (Hb & Hi & _ & _ & Hdom & Hmin & _).
  rewrite Hcount in Hb, Hdom, Hmin. fold old in Hb, Hdom, Hmin, Hin.
  assert (Hb1 : bucket c' (old + 1) = remove_id e (bucket c (old + 1))).
  { unfold c'. rewrite Hb. rewrite (decide_False (P := old + 1 = old + 1 + 1)) by lia.
    by rewrite (decide_True (P := old + 1 = old + 1)). }
  assert (Hb2 : bucket c' (old + 2) =
    mkElement (nextElement c) k :: bucket c (old + 2)).
  { unfold c'. rewrite Hb. rewrite (decide_True (P := old + 2 = old + 1 + 1)) by lia.
    by replace (old + 1 + 1) with (old + 2) by lia. }
  assert (Hkeys : keysOf c' (old + 1) =
    filter (λ k', k' ≠ k) (keysOf c (old + 1))).
  { unfold keysOf. rewrite Hb1.
    apply remove_id_keys; [apply L|]. intros x Hx.
    destruct (linked_element c L _ x Hx) as (it & Hit & Hex & _).
    split.
    - intros Hv. rewrite Hv, He in Hex. by injection Hex.
    - intros Hid.
      by rewrite <- (element_by_id _ _ _ (linked_nodup c L _) Hin Hx
        (eq_sym Hid)). }
  split; [apply list_elem_of_fmap; by exists (mkElement e k)|].
  split; [done|]. split.
  { unfold c' at 1. rewrite Hmin. unfold keysOf. rewrite Hb1.
    destruct (decide (remove_id e (bucket c (old + 1)) = [] ∧ _))
      as [[Hnil ?]|Hno].
    - rewrite decide_True; [done|]. by rewrite Hnil.
    - rewrite decide_False; [done|]. intros [Hnil ?]. apply Hno.
      split; [|done]. by apply fmap_nil_inv in Hnil. }
  split.
  { unfold c'. rewrite Hdom. apply elem_of_union_l, elem_of_singleton. lia. }
  split; [unfold keysOf; by rewrite Hb2|].
  split; [|done].
  intros f Hf1 Hf2. unfold keysOf, c'. rewrite Hb.
  rewrite (decide_False (P := f = old + 1 + 1)) by lia.
  by rewrite (decide_False (P := f = old + 1)).
Qed.

Lemma evict_items_sub c k item :
  items (evictLFU c) !! k = Some item → items c !! k = Some item.
Proof.
  unfold evictLFU. case_decide; [done|].
  destruct (frequencies c !! minFrequency c) as [node|]; [|done].
  destruct (Back (nodeItems node)); [|done].
  cbn. by intros [_ ?]%lookup_delete_Some.
Qed.

Lemma insertNew_items k item c :
  items (insertNew k item c) =
  <[k := item]>
    (items (if decide (capacity c ≤ size c) then evictLFU c else c)).
Proof. rewrite insertNew_placed. apply placed_fields. Qed.

Lemma flush_calls_items (l : list (K * CacheItem K D)) c :
  items (foldl (λ c kv, invoke (aboutToDeleteItem c) (Some kv.2) c) c l)
  = items c.
Proof.
  revert c. induction l as [|kv l IH]; intros c; [done|].
  cbn [foldl]. by rewrite IH.
Qed.

(** While a key is resident its counter does not go down, whatever the
    operation and the state. *)
Lemma counter_monotone n c (op : Op K D Callback) k item item' :
  items c !! k = Some item →
  items (step n c op) !! k = Some item' →
  accessCount item ≤ accessCount item'.
Proof.
  intros Hk.
  assert (Hnew : ∀ k0 it0, items c !! k0 = None →
    items (insertNew k0 it0 c) !! k = Some item' → item' = item).
  { intros k0 it0 Hk0. rewrite insertNew_items.
    rewrite lookup_insert_ne by congruence.
    case_decide; [intros ?%evict_items_sub|]; congruence. }
  destruct op as [k0 ls d now|k0 args now|k0| |g|g|g| |g|g| ]; cbn [step].
  - destruct (items c !! k0) as [it0|] eqn:Hk0.
    + destruct (Add_update k0 ls d now c it0 Hk0)
        as (it0' & Hn & _ & _ & _ & _ & ->). cbn [snd]. unfold touched.
      destruct (updateFrequency_rest k0
        (with_items (<[k0:=it0']> (items c)) c)) as (-> & _). cbn.
      destruct (decide (k0 = k)) as [->|Hne].
      * rewrite lookup_insert_eq. intros [= <-]. simplify_eq. lia.
      * rewrite lookup_insert_ne by done. intros. simplify_eq. lia.
    + rewrite Add_fresh by done. cbn [snd].
      change (items (invoke ?l ?i ?c0)) with (items c0).
      intros ->%Hnew; [lia|done].
  - destruct (items c !! k0) as [it0|] eqn:Hk0.
    + rewrite (Value_hit _ _ _ _ _ Hk0). cbn [snd]. unfold touched.
      destruct (updateFrequency_rest k0
        (with_items (<[k0:=KeepAlive it0 now]> (items c)) c)) as (-> & _).
      cbn. destruct (decide (k0 = k)) as [->|Hne].
      * rewrite lookup_insert_eq. intros [= <-]. simplify_eq. cbn. lia.
      * rewrite lookup_insert_ne by done. intros. simplify_eq. lia.
    + rewrite Value_miss by done.
      destruct (loadData c) as [load|];
        [|cbn [snd]; intros; simplify_eq; lia].
      destruct (load k0 args); cbn [snd]; [|intros; simplify_eq; lia].
      intros ->%Hnew; [lia|done].
  - unfold Delete. destruct (items c !! k0) as [it0|] eqn:Hk0;
      [|cbn [snd]; intros; simplify_eq; lia].
    cbn. destruct (unlink_rest (AccessCount it0)
      (keyToListElement c !! k0) c) as (-> & _).
    intros [_ ?]%lookup_delete_Some. simplify_eq. lia.
  - unfold Flush. cbn. by rewrite lookup_empty.
  - cbn. intros. simplify_eq. lia.
  - unfold SetAddedItemCallback. case_decide; cbn; intros; simplify_eq; lia.
  - cbn. intros. simplify_eq. lia.
  - cbn. intros. simplify_eq. lia.
  - unfold SetAboutToDeleteItemCallback.
    case_decide; cbn; intros; simplify_eq; lia.
  - cbn. intros. simplify_eq. lia.
  - cbn. intros. simplify_eq. lia.
Qed.

End Touch.

(** ** The contracts of [Value] and [Add] *)

Section Contracts.

Context {K : Type} `{Countable K} {D Callback : Type}.
Implicit Types (c : LFUCache K D Callback) (k : K) (f : Z)
  (item : CacheItem K D).

Lemma pushKey_rest f k c :
  let c' := pushKey f k c in
  items c' = items c ∧ size c' = size c ∧ trace c' = trace c.
Proof. done. Qed.

(** In any state, a touch leaves the key at the front of the bucket one
    above its new counter. *)
Lemma touched_front c k item item' :
  items c !! k = Some item →
  let c' := touched k item' c in
  items c' = <[k := item']> (items c) ∧
  keysOf c' (accessCount item' + 1) = k :: keysOf c (accessCount item' + 1) ∧
  size c' = size c ∧ trace c' = trace c.
Proof.
  intros Hk c'. unfold c', touched, updateFrequency.
  change (items (with_items ?m c)) with m. rewrite lookup_insert_eq.
  set (c1 := with_items (<[k:=item']> (items c)) c).
  destruct (unlink_rest (AccessCount item') (keyToListElement c1 !! k) c1)
    as (Hi & _ & Hs & _ & _ & _ & _ & _ & Ht & _).
  match goal with |- context [pushKey ?f0 k ?c0] =>
    destruct (pushKey_rest f0 k c0) as (-> & -> & ->) end.
  split; [by rewrite Hi|]. split; [|by rewrite Hs, Ht].
  unfold keysOf. rewrite bucket_pushKey, decide_True by done.
  rewrite bucket_unlink. unfold AccessCount.
  rewrite (decide_False (P := accessCount item' + 1 = accessCount item')) by lia.
  done.
Qed.

(** The insertion of a new item, in any state: after the eviction that
    a full cache calls for, the item is in the primary map, its key at
    the front of the bucket of frequency 1, [minFrequency] is 1 and
    the size is one more. *)
Lemma insertNew_front k item c :
  let c1 := if decide (capacity c ≤ size c) then evictLFU c else c in
  let c' := insertNew k item c in
  items c' = <[k := item]> (items c1) ∧
  1 ∈ dom (frequencies c') ∧
  keysOf c' 1 = k :: keysOf c1 1 ∧
  minFrequency c' = 1 ∧ size c' = size c1 + 1 ∧
  trace c' = trace c1 ∧ addedItem c' = addedItem c.
Proof.
  intros c1 c'. unfold c'. rewrite insertNew_placed. fold c1.
  destruct (placed_fields k item c1)
    as (Hb & Hi & _ & _ & Hdom & Hmin & Hs & _ & _ & Ha & _ & Ht).
  split; [done|]. split.
  { rewrite Hdom. by apply elem_of_union_l, elem_of_singleton. }
  split; [unfold keysOf; by rewrite Hb, decide_True|].
  split; [done|]. split; [done|]. split; [done|]. rewrite Ha.
  unfold c1. case_decide; [apply evict_rest|done].
Qed.

(** C3: [Value] on a present key touches it and returns the entry with
    no error; on an absent key without a loader it fails with
    [ErrKeyNotFound]; with a loader that returns nothing, with
    [ErrKeyNotFoundOrLoadable]; with a loader that returns an item, the
    item is returned and inserted at frequency 1, after an eviction if
    the cache is at capacity. *)
Theorem Value_contract k args now c :
  (∀ item, items c !! k = Some item →
     ∃ item' c', Value k args now c = (inl item', c') ∧
       item' = KeepAlive item now ∧ c' = touched k item' c ∧
       accessCount item' = accessCount item + 1 ∧
       items c' !! k = Some item' ∧
       keysOf c' (accessCount item' + 1)
         = k :: keysOf c (accessCount item' + 1)) ∧
  (items c !! k = None → loadData c = None →
     Value k args now c = (inr ErrKeyNotFound, c)) ∧
  (∀ load, items c !! k = None → loadData c = Some load →
     load k args = None →
     Value k args now c = (inr ErrKeyNotFoundOrLoadable, c)) ∧
  (∀ load item, items c !! k = None → loadData c = Some load →
     load k args = Some item →
     let c1 := if decide (capacity c ≤ size c) then evictLFU c else c in
     ∃ c', Value k args now c = (inl item, c') ∧
       items c' = <[k := item]> (items c1) ∧
       keysOf c' 1 = k :: keysOf c1 1 ∧
       minFrequency c' = 1 ∧ size c' = size c1 + 1).
Proof.
  repeat split.
  - intros item Hk. exists (KeepAlive item now), (touched k (KeepAlive item now) c).
    rewrite (Value_hit _ _ _ _ _ Hk).
    destruct (touched_front c k item (KeepAlive item now) Hk) as (Hi & Hf & _).
    repeat split; try done. by rewrite Hi, lookup_insert_eq.
  - intros Hk Hl. by rewrite Value_miss, Hl.
  - intros load Hk Hl Hn. by rewrite Value_miss, Hl, Hn.
  - intros load item Hk Hl Hi c1. exists (insertNew k item c).
    rewrite Value_miss, Hl, Hi by done.
    destruct (insertNew_front k item c) as (? & _ & ? & ? & ? & _).
    done.
Qed.

(** C6, as the code has it: for a key that is not resident, [Add]
    creates the entry of [NewCacheItem], whose counter is 0, puts it
    in the primary map and its key at the front of the bucket of
    frequency 1, which exists from then on, sets [minFrequency] to 1,
    adds one to the size (after the eviction, if the cache was full),
    runs every added-item callback with the entry, in the order of
    registration and on the updated map, and returns the entry. *)
Theorem Add_fresh_protocol k ls d now c :
  items c !! k = None →
  let c1 := if decide (capacity c ≤ size c) then evictLFU c else c in
  ∃ item c', Add 0 k ls d now c = (item, c') ∧
    item = NewCacheItem 0 k ls d now ∧
    key item = k ∧ lifeSpan item = ls ∧ data item = d ∧
    accessCount item = 0 ∧
    items c' = <[k := item]> (items c1) ∧
    1 ∈ dom (frequencies c') ∧
    keysOf c' 1 = k :: keysOf c1 1 ∧
    minFrequency c' = 1 ∧
    size c' = size c1 + 1 ∧
    trace c' = trace c1 ++
      map (λ cb, mkEvent cb (Some item) (<[k := item]> (items c1)))
        (addedItem c).
Proof.
  intros Hk c1. eexists _, _. rewrite Add_fresh by done.
  split; [done|].
  destruct (insertNew_front k (NewCacheItem 0 k ls d now) c)
    as (Hi & Hdom & Hf & Hmin & Hs & Ht & Ha).
  fold c1 in Hi, Hf, Hs, Ht.
  repeat split; try done.
  unfold invoke. cbn [trace with_trace]. by rewrite Ht, Hi, Ha.
Qed.

(** C7, as the code has it: a touch of a resident key whose counter is
    [old], by a hit of [Value] or by [Add] on the key, leaves the
    counter at [old + 1]; the key was in the bucket of frequency
    [old + 1] and leaves it; [minFrequency] goes up by one if that
    bucket is now empty and was the one at [minFrequency]; the key
    goes to the front of the bucket of frequency [old + 2], which
    exists from then on.  And no operation lowers the counter of a key
    that stays resident. *)
Theorem touch_semantics c k item :
  coherent c → items c !! k = Some item →
  let old := accessCount item in
  (∀ c' r, (∃ args now, Value k args now c = (inl r, c')) ∨
           (∃ ls d now, Add 0 k ls d now c = (r, c')) →
     accessCount r = old + 1 ∧
     items c' !! k = Some r ∧
     k ∈ keysOf c (old + 1) ∧
     keysOf c' (old + 1) = filter (λ k', k' ≠ k) (keysOf c (old + 1)) ∧
     minFrequency c' =
       (if decide (keysOf c' (old + 1) = [] ∧ old + 1 = minFrequency c)
        then minFrequency c + 1 else minFrequency c) ∧
     old + 2 ∈ dom (frequencies c') ∧
     keysOf c' (old + 2) = k :: keysOf c (old + 2) ∧
     (∀ f, f ≠ old + 1 → f ≠ old + 2 → keysOf c' f = keysOf c f)) ∧
  (∀ n (op : Op K D Callback) item',
     items (step n c op) !! k = Some item' → old ≤ accessCount item').
Proof.
  intros Hc Hk old. split.
  - intros c' r Hcall.
    assert (∃ item', accessCount item' = old + 1 ∧ r = item' ∧
      c' = touched k item' c) as (item' & Hn & -> & ->).
    { destruct Hcall as [(args & now & Hv)|(ls & d & now & Ha)].
      - rewrite (Value_hit _ _ _ _ _ Hk) in Hv. injection Hv as <- <-.
        by exists (KeepAlive item now).
      - destruct (Add_update k ls d now c item Hk)
          as (item' & Hn & _ & _ & _ & _ & Heq).
        rewrite Heq in Ha. injection Ha as <- <-. by exists item'. }
    destruct (touch_moves c k item item' Hc Hk Hn)
      as (? & ? & ? & ? & ? & ? & Hi).
    repeat split; try done. by rewrite Hi, lookup_insert_eq.
  - intros n op item'. by apply counter_monotone.
Qed.

End Contracts.

(** ** The invariants over the runs *)

Section Runs.

Context {K : Type} `{Countable K} {D Callback : Type}.
Implicit Types (c : LFUCache K D Callback) (k : K) (f : Z)
  (item : CacheItem K D).











End Runs.

(** ** MostAccessed *)

Section Ranking.

Context {K : Type} `{Countable K} {D Callback : Type}.
Implicit Types (c : LFUCache K D Callback) (k : K) (f : Z)
  (item : CacheItem K D).

(** The ranking that the spec describes: the frequencies from the
    highest level down to 1, and at each level the entries of the
    bucket from its head to its tail. *)
Definition entries c (l : list (Element K)) : list (CacheItem K D) :=
  omap (λ x, items c !! GoList.Value x) l.

Fixpoint levels_down (n : nat) : list Z :=
  match n with
  | O => []
  | S n' => Z.of_nat n :: levels_down n'
  end.

Definition ranked c : list (CacheItem K D) :=
  levels_down (base.size (frequencies c)) ≫= λ f, entries c (bucket c f).

Lemma take_full {A} (res rest : list A) (count : Z) :
  (length res ≤ Z.to_nat count)%nat →
  ¬ Z.of_nat (length res) < count →
  take (Z.to_nat count) (res ++ rest) = res.
Proof. intros Hle Hge. apply take_app_length'. lia. Qed.

Lemma take_take_app {A} (n : nat) (a b : list A) :
  take n (take n a ++ b) = take n (a ++ b).
Proof.
  destruct (decide (length a ≤ n)%nat) as [Hle|Hgt].
  - by rewrite (take_ge a n).
  - rewrite (take_app_le a b n) by lia.
    apply take_app_length'. rewrite length_take. lia.
Qed.

Lemma scanNode_take c count l res :
  (length res ≤ Z.to_nat count)%nat →
  scanNode c count l (res, Z.of_nat (length res)) =
  let r := take (Z.to_nat count) (res ++ entries c l) in
  (r, Z.of_nat (length r)).
Proof.
  revert res. induction l as [|x l IH]; intros res Hle; cbn zeta.
  - cbn. rewrite app_nil_r, take_ge by done. done.
  - cbn [scanNode fst snd]. case_decide as Hlt.
    + unfold entries. cbn [omap list_omap]. fold (entries c l).
      destruct (items c !! GoList.Value x) as [item|].
      * replace (Z.of_nat (length res) + 1)
          with (Z.of_nat (length (res ++ [item])))
          by (rewrite length_app; cbn; lia).
        rewrite IH by (rewrite length_app; cbn; lia).
        cbn zeta. by rewrite <- app_assoc.
      * by rewrite IH.
    + by rewrite take_full.
Qed.

Lemma scanNode_bucket c count f acc :
  match frequencies c !! f with
  | Some node => scanNode c count (nodeItems node) acc
  | None => acc
  end = scanNode c count (bucket c f) acc.
Proof. unfold bucket. by destruct (frequencies c !! f). Qed.

Lemma scanFrequencies_take c count n res :
  (length res ≤ Z.to_nat count)%nat →
  scanFrequencies c count n (res, Z.of_nat (length res)) =
  let r := take (Z.to_nat count)
             (res ++ (levels_down n ≫= λ f, entries c (bucket c f))) in
  (r, Z.of_nat (length r)).
Proof.
  revert res. induction n as [|n IH]; intros res Hle; cbn zeta.
  - cbn. rewrite app_nil_r, take_ge by done. done.
  - cbn [scanFrequencies fst snd levels_down]. case_decide as Hlt.
    + rewrite scanNode_bucket, scanNode_take by done. cbn zeta.
      rewrite IH by (rewrite length_take; lia). cbn zeta.
      rewrite bind_cons, take_take_app. by rewrite <- app_assoc.
    + by rewrite take_full.
Qed.

(** In every state and for every [count], [MostAccessed] returns the
    first [count] entries of the ranking. *)
Lemma MostAccessed_ranked count c :
  MostAccessed count c = take (Z.to_nat count) (ranked c).
Proof.
  unfold MostAccessed, ranked.
  by rewrite (scanFrequencies_take c count _ []) by (cbn; lia).
Qed.

Lemma MostAccessed_length count c :
  0 ≤ count → Z.of_nat (length (MostAccessed count c)) ≤ count.
Proof. intros Hc. rewrite MostAccessed_ranked, length_take. lia. Qed.

Definition rank_order (a b : CacheItem K D) : Prop :=
  accessCount b ≤ accessCount a.

Lemma entries_level c f item :
  linked c → item ∈ entries c (bucket c f) → accessCount item + 1 = f.
Proof.
  intros L (x & Hx & Hit)%list_elem_of_omap.
  destruct (linked_element c L f x Hx) as (it & Hit' & _ & Hf).
  congruence.
Qed.

Lemma levels_down_bound n f : f ∈ levels_down n ↔ 1 ≤ f ≤ Z.of_nat n.
Proof.
  induction n as [|n IH]; cbn [levels_down].
  - rewrite elem_of_nil. lia.
  - rewrite elem_of_cons, IH. lia.
Qed.

Lemma ranked_sorted_upto c n :
  linked c →
  StronglySorted rank_order
    (levels_down n ≫= λ f, entries c (bucket c f)).
Proof.
  intros L. induction n as [|n IH]; [constructor|].
  cbn [levels_down]. rewrite bind_cons.
  apply StronglySorted_app_2; [| |done].
  - intros a b Ha (f & Hb & Hf)%list_elem_of_bind.
    apply entries_level in Ha; [|done]. apply entries_level in Hb; [|done].
    apply levels_down_bound in Hf. unfold rank_order. lia.
  - assert (Hall : Forall (λ a, accessCount a + 1 = Z.of_nat (S n))
      (entries c (bucket c (Z.of_nat (S n))))).
    { apply Forall_forall. intros a Ha. by apply entries_level in Ha. }
    induction Hall as [|a l Ha Hl IHl]; constructor; [done|].
    eapply Forall_impl; [done|]. intros b Hb. cbn beta in Hb.
    unfold rank_order. lia.
Qed.

Lemma ranked_complete c k item :
  linked c → items c !! k = Some item → item ∈ ranked c.
Proof.
  intros L Hk. destruct (linked_item c L k item Hk) as (e & _ & Hin).
  apply list_elem_of_bind. exists (accessCount item + 1). split.
  - apply list_elem_of_omap. exists (mkElement e k). by split.
  - apply levels_down_bound. rewrite <- size_dom. apply (linked_levels c L).
    apply bucket_nonempty_dom. intros Hnil. rewrite Hnil in Hin.
    by apply elem_of_nil in Hin.
Qed.

(** In a state of the engine the ranking is by counter, highest first,
    and has every resident entry. *)
Lemma MostAccessed_sorted count c :
  linked c → StronglySorted rank_order (MostAccessed count c).
Proof.
  intros L. rewrite MostAccessed_ranked.
  pose proof (ranked_sorted_upto c (base.size (frequencies c)) L) as Hs.
  fold (ranked c) in Hs.
  rewrite <- (take_drop (Z.to_nat count) (ranked c)) in Hs.
  by apply StronglySorted_app_1_l in Hs.
Qed.

End Ranking.

(** ** The registry of LFU caches (cache.go)

    [lfuCaches] maps a name to a pointer; the caches live in the heap
    of the process, here a list indexed by the pointers.  A caller
    acts on a cache through the pointer it got, so what it does is
    seen by whoever holds the pointer. *)

Module Registry.
Section Process.

Context {K : Type} `{Countable K} {D Callback : Type}.

Abbreviation Cache := (LFUCache K D Callback).

Record Process : Type := mkProcess {
  lfuCaches : gmap string nat;
  heap : list Cache
}.

(** [LFUCache(name, capacity)]: the first lookup, under the read lock,
    and the second one, under the write lock, before the cache is
    created and recorded. *)
Definition LFUCache (name : string) (capacity : Z) (p : Process)
  : nat * Process :=
  match lfuCaches p !! name with
  | Some c => (c, p)
  | None =>
      match lfuCaches p !! name with
      | Some c => (c, p)
      | None =>
          let c := length (heap p) in
          (c, mkProcess (<[name := c]> (lfuCaches p))
                (heap p ++ [NewLFUCache name capacity]))
      end
  end.

(** What the callers of a process do: ask the registry for a cache, or
    run an operation on the cache a pointer leads to. *)
Inductive Call : Type :=
  | Ask (name : string) (capacity : Z)
  | Use (c : nat) (op : Op K D Callback).

Definition call (n : Z) (p : Process) (a : Call) : Process :=
  match a with
  | Ask name capacity => (LFUCache name capacity p).2
  | Use c op =>
      match heap p !! c with
      | Some cache => mkProcess (lfuCaches p) (<[c := step n cache op]> (heap p))
      | None => p
      end
  end.

Definition calls (n : Z) (l : list Call) (p : Process) : Process :=
  foldl (call n) p l.

(** The cache registered under [name] is at [c] and was created with
    [capacity]. *)
Definition registered (name : string) (c : nat) (capacity : Z)
  (p : Process) : Prop :=
  lfuCaches p !! name = Some c ∧
  ∃ cache, heap p !! c = Some cache ∧ Capacity cache = capacity.

Lemma LFUCache_known name capacity p c :
  lfuCaches p !! name = Some c → LFUCache name capacity p = (c, p).
Proof. intros Hc. unfold LFUCache. by rewrite Hc. Qed.

Lemma LFUCache_new name capacity p :
  lfuCaches p !! name = None →
  registered name (LFUCache name capacity p).1 capacity
    (LFUCache name capacity p).2.
Proof.
  intros Hc. unfold LFUCache, registered. rewrite Hc.
  cbn [fst snd lfuCaches heap]. split.
  - by rewrite lookup_insert_eq.
  - exists (NewLFUCache name capacity). split; [|done].
    rewrite lookup_app_r by done. by rewrite Nat.sub_diag.
Qed.

Lemma call_registered n name c capacity p a :
  registered name c capacity p → registered name c capacity (call n p a).
Proof.
  intros (Hc & cache & Hcache & Hcap).
  destruct a as [name' capacity'|c' op]; cbn [call].
  - unfold LFUCache, registered.
    destruct (lfuCaches p !! name') eqn:Hn'; [by split; eauto|].
    cbn [fst snd lfuCaches heap]. split.
    + rewrite lookup_insert_ne; [done|]. intros ->. congruence.
    + exists cache. split; [|done]. by apply lookup_app_l_Some.
  - destruct (heap p !! c') as [cache'|] eqn:Hc'; [|by split; eauto].
    split; [done|]. cbn [heap]. destruct (decide (c' = c)) as [->|Hne].
    + exists (step n cache' op). split.
      * apply list_lookup_insert_eq. by eapply lookup_lt_Some.
      * unfold Capacity in *. rewrite step_capacity. congruence.
    + exists cache. by rewrite list_lookup_insert_ne.
Qed.

Lemma calls_registered n name c capacity l p :
  registered name c capacity p → registered name c capacity (calls n l p).
Proof.
  revert p. induction l as [|a l IH]; intros p Hp; [done|].
  cbn. apply IH. by apply call_registered.
Qed.

(** C10: for a name that is in the registry, [LFUCache(name, capacity)]
    returns the cache that was created first and leaves the process
    as it is, whatever [capacity] is; and whatever the callers have
    done since the creation, the capacity of the cache it returns is
    the one given at the creation. *)
Theorem first_capacity_wins :
  (∀ name capacity p c,
     lfuCaches p !! name = Some c → LFUCache name capacity p = (c, p)) ∧
  (∀ n name first later l p,
     lfuCaches p !! name = None →
     let created := LFUCache name first p in
     let p' := calls n l created.2 in
     let again := LFUCache name later p' in
     again.1 = created.1 ∧ again.2 = p' ∧
     Capacity <$> (heap again.2 !! again.1) = Some first).
Proof.
  split; [intros; by apply LFUCache_known|].
  intros n name first later l p Hnew created p' again.
  destruct (calls_registered n name created.1 first l created.2
    (LFUCache_new name first p Hnew)) as (Hc & cache & Hcache & Hcap).
  fold p' in Hc, Hcache.
  unfold again. rewrite (LFUCache_known name later p' created.1 Hc).
  cbn [fst snd]. by rewrite Hcache, <- Hcap.
Qed.

End Process.
End Registry.

(** ** Scenarios: the tests of lfu_test.go and the examples of the spec *)

Module Scenarios.

Abbreviation Cache := (LFUCache string string string).
Abbreviation add k := (OpAdd (K := string) (D := string) (Callback := string) k 0 "v"%string 0).
Abbreviation get k := (OpValue (K := string) (D := string) (Callback := string) k [] 0).

(** TestLFUEviction: capacity 2; key1 is read three times, key2 once;
    then key3 is added.  The test wants key1 and key3 in the cache,
    key2 out of it, and a count of 2. *)
Definition TestLFUEviction (initialCount : Z) : bool :=
  let cache : Cache :=
    run initialCount
      [add "key1"; add "key2"; get "key1"; get "key1"; get "key1";
       get "key2"; add "key3"]%string
      (NewLFUCache "testLFUEviction" 2) in
  Exists "key1"%string cache && negb (Exists "key2"%string cache)
  && Exists "key3"%string cache && bool_decide (Count cache = 2).

(** TestLFUMostAccessed: key1 is read three times, key2 once, key3
    twice; the test wants three items, key1 first. *)
Definition TestLFUMostAccessed (initialCount : Z) : bool :=
  let cache : Cache :=
    run initialCount
      [add "key1"; add "key2"; add "key3"; get "key1"; get "key1";
       get "key1"; get "key2"; get "key3"; get "key3"]%string
      (NewLFUCache "testLFUMostAccessed" 5) in
  let mostAccessed := MostAccessed 3 cache in
  bool_decide (length mostAccessed = 3%nat)
  && bool_decide (key <$> head mostAccessed = Some "key1"%string).

(** The tests pass when [NewCacheItem] starts the counter at 0, and
    fail when it starts it at 1. *)
Lemma tests_fix_initialCount :
  TestLFUEviction 0 = true ∧ TestLFUMostAccessed 0 = true ∧
  TestLFUEviction 1 = false ∧ TestLFUMostAccessed 1 = false.
Proof. by vm_compute. Qed.

(** *** Capacity *)

(** With capacity 0 the count is 1 after an insert, and after the
    next one: it does not settle at 0. *)
Lemma capacity_zero_holds_one :
  let c1 : Cache := run 0 (inserts [("A", 0, "v", 0)]%string)
                      (NewLFUCache "c" 0) in
  let c2 : Cache := run 0 (inserts [("A", 0, "v", 0); ("B", 0, "v", 0)]%string)
                      (NewLFUCache "c" 0) in
  Capacity c1 = 0 ∧ Count c1 = 1 ∧ Count c2 = 1 ∧ Count c2 ≠ 0.
Proof. by vm_compute. Qed.

Lemma capacity_bound_witness :
  let c : Cache := run 0 (inserts [("A", 0, "v", 0); ("B", 0, "v", 0);
                                   ("C", 0, "v", 0)]%string)
                     (NewLFUCache "c" 2) in
  (1 ≤ 2 → Count c ≤ Capacity c) ∧
  (2 = 0 → [("A", 0, "v", 0); ("B", 0, "v", 0);
            ("C", 0, "v", 0)]%string ≠ [] → Count c = 1).
Proof.
  exact (capacity_bound "c" 2
    [("A", 0, "v", 0); ("B", 0, "v", 0); ("C", 0, "v", 0)]%string).
Defined.

(** *** The states the examples start from *)

Lemma sound_run (ops : list (Op string string string)) nm cap :
  Forall sound_op ops →
  engine_state (run 0 ops (NewLFUCache nm cap)).
Proof. intros Hops. by apply run_engine_state; [apply new_engine_state|]. Qed.

(** *** Eviction *)

(** Capacity 2; A then B are inserted, neither is touched; the
    insertion of C evicts A.  The about-to-delete callback is called
    once, with the entry of A, while A is still in the primary map. *)
Definition tie_break : Cache :=
  run 0 [OpSetAboutToDeleteItemCallback "watch"%string;
         add "A"; add "B"; add "C"]%string (NewLFUCache "c" 2).

Lemma tie_break_evicts_A :
  Exists "A"%string tie_break = false ∧
  Exists "B"%string tie_break = true ∧
  Exists "C"%string tie_break = true ∧
  (λ ev, (callback ev, key <$> argument ev,
          bool_decide (is_Some (seen ev !! "A"%string)))) <$> trace tie_break
  = [("watch", Some "A", true)]%string.
Proof. by vm_compute. Qed.

(** *** The contract of Value *)

(** The loader of lfu_test.go and of the example program. *)
Definition grape_loader (k : string) (args : list string)
  : option (CacheItem string string) :=
  if decide (k = "grape"%string)
  then Some (NewCacheItem 0 k 0 "A purple fruit (loaded)"%string 0)
  else None.

Lemma Value_contract_witness :
  let c : Cache := run 0 [add "apple"%string] (NewLFUCache "c" 3) in
  let c' : Cache := SetDataLoader grape_loader c in
  (∃ item' c1, Value "apple"%string [] 7 c = (inl item', c1) ∧
     accessCount item' = 1 ∧ items c1 !! "apple"%string = Some item') ∧
  Value "other"%string [] 7 c = (inr ErrKeyNotFound, c) ∧
  Value "other"%string [] 7 c' = (inr ErrKeyNotFoundOrLoadable, c') ∧
  (∃ c1, Value "grape"%string [] 7 c'
           = (inl (NewCacheItem 0 "grape" 0 "A purple fruit (loaded)" 0)%string,
              c1) ∧
     keysOf c1 1 = ["grape"; "apple"]%string ∧ minFrequency c1 = 1 ∧
     size c1 = 2).
Proof.
  intros c c'.
  destruct (Value_contract "apple"%string [] 7 c) as (Hhit & _).
  destruct (Value_contract "other"%string [] 7 c) as (_ & Hnone & _).
  destruct (Value_contract "other"%string [] 7 c') as (_ & _ & Hdecl & _).
  destruct (Value_contract "grape"%string [] 7 c') as (_ & _ & _ & Hload).
  split; [|split; [|split]].
  - destruct (Hhit (NewCacheItem 0 "apple" 0 "v" 0)%string eq_refl)
      as (item' & c1 & Hv & _ & _ & Hn & Hi & _).
    exists item', c1. by repeat split.
  - by apply Hnone.
  - by apply (Hdecl grape_loader).
  - destruct (Hload grape_loader
      (NewCacheItem 0 "grape" 0 "A purple fruit (loaded)" 0)%string
      eq_refl eq_refl eq_refl) as (c1 & Hv & _ & Hk & Hm & Hs).
    exists c1. by repeat split.
Defined.

(** *** minFrequency *)



(** *** Buckets and counters *)



(** *** Add of a new key *)

Lemma fresh_entry_counter_zero :
  let r := Add 0 "A"%string 0 "v"%string 0 (NewLFUCache "c" 2 : Cache) in
  accessCount r.1 = 0 ∧ accessCount r.1 ≠ 1 ∧ keysOf r.2 1 = ["A"%string].
Proof. by vm_compute. Qed.

Lemma Add_fresh_protocol_witness :
  let c : Cache := NewLFUCache "c" 2 in
  let c1 := if decide (capacity c ≤ size c) then evictLFU c else c in
  ∃ item c', Add 0 "A"%string 0 "v"%string 0 c = (item, c') ∧
    item = NewCacheItem 0 "A"%string 0 "v"%string 0 ∧
    key item = "A"%string ∧ lifeSpan item = 0 ∧ data item = "v"%string ∧
    accessCount item = 0 ∧
    items c' = <["A"%string := item]> (items c1) ∧
    1 ∈ dom (frequencies c') ∧
    keysOf c' 1 = "A"%string :: keysOf c1 1 ∧
    minFrequency c' = 1 ∧
    size c' = size c1 + 1 ∧
    trace c' = trace c1 ++
      map (λ cb, mkEvent cb (Some item) (<["A"%string := item]> (items c1)))
        (addedItem c).
Proof.
  intros c.
  apply (Add_fresh_protocol "A"%string 0 "v"%string 0 c). reflexivity.
Defined.

(** *** Touch *)

(** A with counter 0 is read: the counter goes to 1 and the key from
    the bucket of frequency 1 to the bucket of frequency 2; the claim
    has it go from the bucket of frequency 0 to the one of
    frequency 1. *)
Lemma touch_goes_two_above :
  let c : Cache := run 0 [add "A"%string] (NewLFUCache "c" 2) in
  let r := Value "A"%string [] 0 c in
  (accessCount <$> items c !! "A"%string) = Some 0 ∧
  keysOf c 0 = [] ∧ keysOf c 1 = ["A"%string] ∧
  (accessCount <$> items r.2 !! "A"%string) = Some 1 ∧
  keysOf r.2 1 = [] ∧ keysOf r.2 2 = ["A"%string] ∧
  keysOf r.2 (0 + 1) ≠ "A"%string :: keysOf c (0 + 1).
Proof. by vm_compute. Qed.

Lemma touch_semantics_witness :
  let c : Cache := run 0 [add "A"; add "B"]%string (NewLFUCache "c" 2) in
  let r := Value "A"%string [] 9 c in
  ∃ item', r.1 = inl item' ∧
    accessCount item' = 0 + 1 ∧
    items r.2 !! "A"%string = Some item' ∧
    "A"%string ∈ keysOf c (0 + 1) ∧
    keysOf r.2 (0 + 1)
      = filter (λ k', k' ≠ "A"%string) (keysOf c (0 + 1)) ∧
    minFrequency r.2 =
      (if decide (keysOf r.2 (0 + 1) = [] ∧ 0 + 1 = minFrequency c)
       then minFrequency c + 1 else minFrequency c) ∧
    0 + 2 ∈ dom (frequencies r.2) ∧
    keysOf r.2 (0 + 2) = "A"%string :: keysOf c (0 + 2).
Proof.
  intros c r.
  assert (Hk : items c !! "A"%string
               = Some (NewCacheItem 0 "A" 0 "v" 0)%string) by reflexivity.
  destruct (touch_semantics c "A"%string _
    (proj1 (sound_run [add "A"; add "B"]%string "c" 2
              ltac:(repeat constructor))) Hk) as [Ht _].
  exists (KeepAlive (NewCacheItem 0 "A" 0 "v" 0)%string 9).
  destruct (Ht r.2 (KeepAlive (NewCacheItem 0 "A" 0 "v" 0)%string 9))
    as (? & ? & ? & ? & ? & ? & ? & _).
  { left. exists [], 9. unfold r. by rewrite (Value_hit _ _ _ _ _ Hk). }
  unfold r at 1. rewrite (Value_hit _ _ _ _ _ Hk). by repeat split.
Defined.

End Scenarios.

(** ** Eviction selection and the ranking, with their examples *)

(** C2: [evictLFU] on an empty cache does nothing.  In a state of the
    engine that holds an item, it removes the key at the tail of the
    bucket at [minFrequency]: a resident key, of the least counter in
    the cache, and the least recently touched of its bucket.  Every
    about-to-delete callback is called with the entry of that key, in
    the order of registration, on a primary map that still has the
    key; then the key leaves the primary map and the position map and
    the size goes down by one.  With capacity 2, after A and B, the
    insertion of C evicts A. *)
Theorem evict_selection :
  (∀ (K : Type) `(Countable K) (D Callback : Type)
     (c : LFUCache K D Callback),
     size c = 0 → evictLFU c = c) ∧
  (∀ (K : Type) `(Countable K) (D Callback : Type)
     (c : LFUCache K D Callback),
     engine_state c → size c ≠ 0 →
     ∃ rest x item,
       bucket c (minFrequency c) = rest ++ [x] ∧
       items c !! GoList.Value x = Some item ∧
       accessCount item + 1 = minFrequency c ∧
       (∀ k' item', items c !! k' = Some item' →
          accessCount item ≤ accessCount item') ∧
       (∀ y, y ∈ bucket c (minFrequency c) →
          (GoList.id x ≤ GoList.id y)%nat) ∧
       let c' := evictLFU c in
       bucket c' (minFrequency c) = rest ∧
       (∀ f, f ≠ minFrequency c → bucket c' f = bucket c f) ∧
       trace c' = trace c ++
         map (λ cb, mkEvent cb (Some item) (items c))
           (aboutToDeleteItem c) ∧
       items c' = delete (GoList.Value x) (items c) ∧
       keyToListElement c' = delete (GoList.Value x) (keyToListElement c) ∧
       size c' = size c - 1 ∧
       minFrequency c' = minFrequency c) ∧
  (Exists "A"%string Scenarios.tie_break = false ∧
   Exists "B"%string Scenarios.tie_break = true ∧
   Exists "C"%string Scenarios.tie_break = true).
Proof.
  split; [intros; by apply evict_empty|].
  split; [intros; by apply evict_tail|].
  by vm_compute.
Qed.

Lemma evict_selection_witness :
  let c : Scenarios.Cache :=
    run 0 [Scenarios.add "A"; Scenarios.add "B"]%string (NewLFUCache "c" 2) in
  ∃ rest x item,
    bucket c (minFrequency c) = rest ++ [x] ∧
    items c !! GoList.Value x = Some item ∧
    accessCount item + 1 = minFrequency c ∧
    (∀ k' item', items c !! k' = Some item' →
       accessCount item ≤ accessCount item') ∧
    (∀ y, y ∈ bucket c (minFrequency c) →
       (GoList.id x ≤ GoList.id y)%nat) ∧
    let c' := evictLFU c in
    bucket c' (minFrequency c) = rest ∧
    (∀ f, f ≠ minFrequency c → bucket c' f = bucket c f) ∧
    trace c' = trace c ++
      map (λ cb, mkEvent cb (Some item) (items c))
        (aboutToDeleteItem c) ∧
    items c' = delete (GoList.Value x) (items c) ∧
    keyToListElement c' = delete (GoList.Value x) (keyToListElement c) ∧
    size c' = size c - 1 ∧
    minFrequency c' = minFrequency c.
Proof.
  intros c.
  apply (proj1 (proj2 evict_selection) string _ _ string string c).
  - apply Scenarios.sound_run. repeat constructor.
  - by vm_compute.
Defined.

(** C9: in every state and for every [count], [MostAccessed(count)]
    is the first [count] entries of the ranking: the frequency levels
    from the highest down to 1, each bucket from its head to its tail,
    so at most [count] entries; in a state of the engine the counters
    of the entries it returns go down.  With the counters A:3, B:1 and
    C:2, [MostAccessed(3)] is A, C, B. *)
Theorem MostAccessed_ordering :
  (∀ (K : Type) `(Countable K) (D Callback : Type)
     (c : LFUCache K D Callback) count,
     MostAccessed count c = take (Z.to_nat count) (ranked c) ∧
     (0 ≤ count → Z.of_nat (length (MostAccessed count c)) ≤ count)) ∧
  (∀ (K : Type) `(Countable K) (D Callback : Type)
     (c : LFUCache K D Callback) count,
     coherent c → StronglySorted rank_order (MostAccessed count c)) ∧
  (let c : Scenarios.Cache :=
     run 0 [Scenarios.add "A"; Scenarios.add "B"; Scenarios.add "C";
            Scenarios.get "A"; Scenarios.get "A"; Scenarios.get "A";
            Scenarios.get "B";
            Scenarios.get "C"; Scenarios.get "C"]%string
       (NewLFUCache "c" 5) in
   (λ item, (key item, accessCount item)) <$> MostAccessed 3 c
   = [("A", 3); ("C", 2); ("B", 1)]%string).
Proof.
  split; [|split].
  - intros. split; [apply MostAccessed_ranked|apply MostAccessed_length].
  - intros K ? ? D Callback c count [L _]. by apply MostAccessed_sorted.
  - by vm_compute.
Qed.

Lemma MostAccessed_ordering_witness :
  let c : Scenarios.Cache :=
    run 0 [Scenarios.add "A"; Scenarios.add "B"; Scenarios.get "B"]%string
      (NewLFUCache "c" 5) in
  StronglySorted rank_order (MostAccessed 2 c).
Proof.
  intros c.
  apply (proj1 (proj2 MostAccessed_ordering) string _ _ string string c 2).
  apply Scenarios.sound_run. repeat constructor.
Defined.

(** ** Delete *)

(** C8 at work: A is inserted and read once, so its counter is 1 and
    its element is in the bucket of frequency 2.  [Delete] returns the
    entry, runs the callback and takes the key out of the primary map
    and of the position map, and the size goes down; but it looks for
    the element in the bucket of frequency 1, and the key stays in the
    bucket of frequency 2.  On an absent key it fails with
    [ErrKeyNotFound] and leaves the cache as it is. *)
Theorem Delete_leaves_element :
  let c : Scenarios.Cache :=
    run 0 [OpSetAboutToDeleteItemCallback "watch"%string;
           Scenarios.add "A"; Scenarios.get "A"]%string
      (NewLFUCache "c" 2) in
  let r := Delete "A"%string c in
  Delete "B"%string c = (inr ErrKeyNotFound, c) ∧
  r.1 = inl (mkCacheItem "A" 0 "v" 0 1)%string ∧
  (λ ev, (callback ev, key <$> argument ev)) <$> trace r.2
    = [("watch", Some "A")]%string ∧
  items r.2 !! "A"%string = None ∧
  keyToListElement r.2 !! "A"%string = None ∧
  size r.2 = 0 ∧
  keysOf c 2 = ["A"%string] ∧
  keysOf r.2 2 = ["A"%string].
Proof. by vm_compute. Qed.

Lemma first_capacity_wins_witness :
  let p : Registry.Process (K := string) (D := string) (Callback := string) :=
    Registry.mkProcess ∅ [] in
  let created := Registry.LFUCache "users" 3 p in
  let p' := Registry.calls 0
    [Registry.Use 0 (Scenarios.add "A"); Registry.Ask "orders" 9;
     Registry.Use 0 (Scenarios.add "B")]%string created.2 in
  let again := Registry.LFUCache "users" 100 p' in
  again.1 = created.1 ∧ again.2 = p' ∧
  Capacity <$> (Registry.heap again.2 !! again.1) = Some 3.
Proof.
  intros p.
  apply (proj2 Registry.first_capacity_wins 0 "users"%string 3 100
    [Registry.Use 0 (Scenarios.add "A"); Registry.Ask "orders" 9;
     Registry.Use 0 (Scenarios.add "B")]%string p).
  reflexivity.
Defined.

(** * Further properties of the engine *)

Section Flushing.

Context {K : Type} `{Countable K} {D Callback : Type}.
Implicit Types (c : LFUCache K D Callback) (k : K) (f : Z)
  (item : CacheItem K D).

(** The calls that [Flush] makes for the items [l], one after the
    other: every callback of the queue for every item, each on the
    primary map as it was. *)
Definition farewell c (l : list (K * CacheItem K D))
  : list (Event K D Callback) :=
  l ≫= λ kv, map (λ cb, mkEvent cb (Some kv.2) (items c)) (aboutToDeleteItem c).

Lemma flush_calls_trace (l : list (K * CacheItem K D)) c :
  let c1 := foldl (λ c kv, invoke (aboutToDeleteItem c) (Some kv.2) c) c l in
  trace c1 = trace c ++ farewell c l ∧
  capacity c1 = capacity c ∧ name c1 = name c ∧
  addedItem c1 = addedItem c ∧ aboutToDeleteItem c1 = aboutToDeleteItem c ∧
  nextElement c1 = nextElement c.
Proof.
  revert c. induction l as [|kv l IH]; intros c.
  - cbn. by rewrite app_nil_r.
  - cbn [foldl].
    destruct (IH (invoke (aboutToDeleteItem c) (Some kv.2) c))
      as (-> & -> & -> & -> & -> & ->).
    unfold farewell. rewrite bind_cons. cbn. by rewrite <- app_assoc.
Qed.

Lemma length_farewell c l :
  length (farewell c l) = (length l * length (aboutToDeleteItem c))%nat.
Proof.
  unfold farewell. induction l as [|kv l IH]; [done|].
  rewrite bind_cons, length_app, length_map, IH. cbn. lia.
Qed.

(** [Flush] empties the cache: the count is 0, no key exists, no
    bucket is left, [minFrequency] is 0 and [MostAccessed] has nothing
    to return; the capacity, the loader and the callback queues stay.
    Before that every about-to-delete callback has been called for
    every resident item and for nothing else, with the primary map
    still complete: one call for each pair of an item and a
    callback. *)
Theorem Flush_complete c :
  let c' := Flush c in
  Count c' = 0 ∧
  (∀ k, Exists k c' = false) ∧
  frequencies c' = ∅ ∧ minFrequency c' = 0 ∧
  (∀ count, MostAccessed count c' = []) ∧
  Capacity c' = Capacity c ∧ loadData c' = loadData c ∧
  addedItem c' = addedItem c ∧
  aboutToDeleteItem c' = aboutToDeleteItem c ∧
  trace c' = trace c ++ farewell c (map_to_list (items c)) ∧
  (∀ ev, ev ∈ farewell c (map_to_list (items c)) ↔
     ∃ k item cb, items c !! k = Some item ∧ cb ∈ aboutToDeleteItem c ∧
       ev = mkEvent cb (Some item) (items c)) ∧
  length (farewell c (map_to_list (items c)))
    = (base.size (items c) * length (aboutToDeleteItem c))%nat.
Proof.
  intros c'.
  destruct (flush_calls_trace (map_to_list (items c)) c)
    as (Ht & Hcap & _ & Ha & Hd & _).
  pose proof (flush_calls_loader (map_to_list (items c)) c) as Hl.
  split; [done|]. split.
  { intros k. unfold Exists. apply bool_decide_eq_false.
    change (items c') with (∅ : gmap K (CacheItem K D)).
    rewrite lookup_empty. by intros [? ?]. }
  do 7 (split; [done|]). split; [done|]. split.
  - intros ev. split.
    + intros (kv & Hev & Hkv)%list_elem_of_bind.
      apply list_elem_of_fmap in Hev as (cb & -> & Hcb).
      destruct kv as [k item]. apply elem_of_map_to_list in Hkv.
      by exists k, item, cb.
    + intros (k & item & cb & Hk & Hcb & ->).
      apply list_elem_of_bind. exists (k, item). split.
      * apply list_elem_of_fmap. by exists cb.
      * by apply elem_of_map_to_list.
  - by rewrite length_farewell, length_map_to_list.
Qed.

End Flushing.
